(** * Client-side state layer of the voice-cloning studio front-end

    A shallow embedding of
      - [frontend/src/utils/api.ts]   ([validateAudioFile], [handleAPIError]),
      - [frontend/src/store/useTTSStore.ts],
      - [frontend/src/store/useSettingsStore.ts],
      - the voice store ([useVoiceStore]),
      - the mock gateway handlers ([frontend/src/test/mocks/handlers.ts]),
      - the handlers of the voices page and of the voice cloning page, and
        the clamping of the progress bar,
    together with the properties the specification states about them and
    further properties read off the code.

    JavaScript values of type [any] are modelled by a small value type with
    the language's truthiness and property-read rules; the zustand stores are
    modelled by explicit state passing in a monad that also carries the
    exception thrown (if any) and the toasts and console lines emitted. *)

From Stdlib Require Import ZArith QArith Qminmax Qround String Ascii List Bool Lia Lqa.
From stdpp Require Import base option list strings pretty.

Local Open Scope string_scope.
Local Open Scope Z_scope.

(** ** JavaScript values *)

Module Js.

(** The values an [any]-typed expression can hold here.  Numbers are
    modelled by integers (sizes, counts and status codes); objects by the
    association list of their properties, first binding wins. *)
#[warnings="-register-all"]
Inductive JsVal : Type :=
| JUndefined
| JNull
| JBool (b : bool)
| JNum (n : Z)
| JStr (s : string)
| JArr (items : list JsVal)
| JObj (props : list (string * JsVal)).

(** Result of evaluating an expression or running a function body. *)
Inductive Completion (A : Type) : Type :=
| Returns (a : A)
| Throws (e : JsVal).
Arguments Returns {A} a.
Arguments Throws {A} e.

#[global] Instance completion_ret : MRet Completion := @Returns.
#[global] Instance completion_bind : MBind Completion :=
  λ A B f c, match c with Returns a => f a | Throws e => Throws e end.

(** [ToBoolean]: the test performed by [if (v)]. *)
Definition truthy (v : JsVal) : bool :=
  match v with
  | JUndefined | JNull => false
  | JBool b => b
  | JNum n => negb (n =? 0)
  | JStr s => negb (String.eqb s "")
  | JArr _ | JObj _ => true
  end.

Definition nullish (v : JsVal) : bool :=
  match v with
  | JUndefined | JNull => true
  | _ => false
  end.

(** Property lookup in an object.  The prototype chain is left out: none of
    [response], [data], [detail] lives on a built-in prototype, and
    [Error.prototype.message] is the empty string, which [if] treats like
    [undefined]. *)
Fixpoint prop (k : string) (props : list (string * JsVal)) : JsVal :=
  match props with
  | [] => JUndefined
  | (k', v) :: rest => if String.eqb k k' then v else prop k rest
  end.

(** The object thrown when a property of [null] or [undefined] is read
    (wording of V8). *)
Definition TypeError (base : JsVal) (k : string) : JsVal :=
  JObj [("name", JStr "TypeError");
        ("message",
         JStr ("Cannot read properties of "
               +:+ (match base with JNull => "null" | _ => "undefined" end)
               +:+ " (reading '" +:+ k +:+ "')"))].

(** [v.k] *)
Definition member (v : JsVal) (k : string) : Completion JsVal :=
  match v with
  | JUndefined | JNull => Throws (TypeError v k)
  | JObj props => Returns (prop k props)
  | JBool _ | JNum _ | JStr _ | JArr _ => Returns JUndefined
  end.

(** [v?.k] *)
Definition opt_member (v : JsVal) (k : string) : JsVal :=
  match v with
  | JObj props => prop k props
  | _ => JUndefined
  end.

End Js.
Export Js.

(** ** [utils/api.ts] *)

Module Api.

(** The part of a browser [File] that the front-end reads. *)
Record File : Type := mkFile {
  file_name : string;
  file_type : string;      (* MIME type *)
  file_size : Z;           (* bytes *)
  file_lastModified : Z
}.

Record Validation : Type := mkValidation {
  valid : bool;
  error : option string
}.

Definition validTypes : list string :=
  ["audio/wav"; "audio/mp3"; "audio/mpeg"; "audio/ogg"; "audio/webm"].

Definition maxSize : Z := 50 * 1024 * 1024.

(** [Array.prototype.includes] on an array of strings. *)
Definition includes (l : list string) (x : string) : bool :=
  existsb (String.eqb x) l.

Definition type_error : string :=
  "Nur Audio-Dateien sind erlaubt (WAV, MP3, OGG, WebM)".
Definition size_error : string :=
  "Datei ist zu groß (max. 50MB)".

Definition validateAudioFile (file : File) : Validation :=
  if negb (includes validTypes (file_type file)) then
    {| valid := false; error := Some type_error |}
  else if file_size file >? maxSize then
    {| valid := false; error := Some size_error |}
  else
    {| valid := true; error := None |}.

Definition fallback_message : string :=
  "Ein unbekannter Fehler ist aufgetreten".

(** [error.response?.data?.detail] and [error.response?.data?.message]:
    only the first read can throw. *)
Definition response_field (error : JsVal) (k : string) : Completion JsVal :=
  response ← member error "response";
  mret (opt_member (opt_member response "data") k).

(** [error.response.data.detail] and [error.response.data.message] *)
Definition response_field_strict (error : JsVal) (k : string)
  : Completion JsVal :=
  response ← member error "response";
  data ← member response "data";
  member data k.

(** The value [handleAPIError] settles on when no read throws: the first
    truthy one of the three candidates, else the fallback text. *)
Definition body_field (error : JsVal) (k : string) : JsVal :=
  opt_member (opt_member (opt_member error "response") "data") k.

Fixpoint first_truthy (candidates : list JsVal) (default : JsVal) : JsVal :=
  match candidates with
  | [] => default
  | v :: rest => if truthy v then v else first_truthy rest default
  end.

(** The message [handleAPIError] extracts from a failure that is not
    [null] or [undefined]. *)
Definition normalized (error : JsVal) : JsVal :=
  first_truthy [body_field error "detail";
                body_field error "message";
                opt_member error "message"]
               (JStr fallback_message).

Definition handleAPIError (error : JsVal) : Completion JsVal :=
  detail ← response_field error "detail";
  if truthy detail then response_field_strict error "detail"
  else
    message ← response_field error "message";
    if truthy message then response_field_strict error "message"
    else
      own ← member error "message";
      if truthy own then member error "message"
      else mret (JStr fallback_message).

End Api.
Export Api.

(** ** Effects of a store action *)

Module Effects.

(** What a store action does besides changing the store. *)
Inductive Event : Type :=
| ToastSuccess (msg : string)
| ToastError (prefix : string) (interpolated : JsVal)
    (* toast.error(`<prefix>${interpolated}`) *)
| ConsoleError (label : string) (arg : JsVal).

(** How a call of the gateway ([apiClient]) settles.  The gateway awaits
    axios, which rejects with an [Error] instance: the rejection is an
    object, given by its properties. *)
Inductive Outcome (A : Type) : Type :=
| Resolved (a : A)
| Rejected (error : list (string * JsVal)).
Arguments Resolved {A} a.
Arguments Rejected {A} error.

Record Ran (S A : Type) : Type := mkRan {
  completion : Completion A;
  state : S;
  events : list Event
}.
Arguments mkRan {S A}.
Arguments completion {S A}.
Arguments state {S A}.
Arguments events {S A}.

(** A store action: from the store's state to a completion, the new state
    and the events emitted, in order. *)
Definition Act (S A : Type) : Type := S → Ran S A.

#[global] Instance act_ret {S} : MRet (Act S) :=
  λ A a s, mkRan (Returns a) s [].

#[global] Instance act_bind {S} : MBind (Act S) :=
  λ A B f m s,
    let r := m s in
    match completion r with
    | Returns a =>
        let r' := f a (state r) in
        mkRan (completion r') (state r') (events r ++ events r')
    | Throws e => mkRan (Throws e) (state r) (events r)
    end.

(** [get()] *)
Definition get {S} : Act S S := λ s, mkRan (Returns s) s [].

(** [set(partial)], the partial state given as the update it performs. *)
Definition set {S} (f : S → S) : Act S unit := λ s, mkRan (Returns tt) (f s) [].

Definition emit {S} (ev : Event) : Act S unit := λ s, mkRan (Returns tt) s [ev].

Definition throw {S A} (e : JsVal) : Act S A := λ s, mkRan (Throws e) s [].

(** A call of a pure function that may throw. *)
Definition call {S A} (c : Completion A) : Act S A := λ s, mkRan c s [].

(** [await] of a gateway call that settles with [o]. *)
Definition await {S A} (o : Outcome A) : Act S A :=
  match o with
  | Resolved a => mret a
  | Rejected error => throw (JObj error)
  end.

(** [try { body } catch (error) { handler }] *)
Definition try_catch {S A} (body : Act S A) (handler : JsVal → Act S A)
  : Act S A :=
  λ s,
    let r := body s in
    match completion r with
    | Returns a => r
    | Throws e =>
        let r' := handler e (state r) in
        mkRan (completion r') (state r') (events r ++ events r')
    end.

End Effects.
Export Effects.

(** ** [types] *)

Module Types.

Module Status.
Inductive VoiceStatus : Type := processing | ready | error | training.
End Status.
Abbreviation VoiceStatus := Status.VoiceStatus.

Record Voice : Type := mkVoice {
  id : string;
  name : string;
  description : string;
  status : VoiceStatus;
  created_at : string;
  language : option string;
  sample_count : Z;
  duration : option Q;
  preview_url : option string
}.

Record TTSRequest : Type := mkTTSRequest {
  req_text : string;
  req_voice_id : string;
  req_language : string;
  req_speed : Q;
  req_temperature : Q
}.

Record TTSResponse : Type := mkTTSResponse {
  audio_url : string;
  filename : string;
  res_duration : Q;
  res_text : string;
  res_voice_id : string;
  generated_at : string
}.

Record VoiceCloneRequest : Type := mkVoiceCloneRequest {
  clone_name : string;
  clone_description : string;
  clone_files : list File
}.

(** Body of the reply to [POST /voices/clone]. *)
Record VoiceCloneReply : Type := mkVoiceCloneReply {
  voice_id : string;
  reply_status : string;
  reply_message : string
}.

Record Language : Type := mkLanguage {
  code : string;
  lang_name : string
}.

(** Body of the reply to [GET /languages]. *)
Record LanguagesReply : Type := mkLanguagesReply {
  reply_languages : list Language
}.

Record GenerationSettings : Type := mkGenerationSettings {
  temperature : Q;
  speed : Q;
  settings_language : string
}.

End Types.
Export Types.

(** ** [store/useVoiceStore] *)

Module VoiceStore.

Record State : Type := mkState {
  voices : list Voice;
  selectedVoice : option Voice;
  isLoading : bool;
  error : JsVal                (* string | null *)
}.

Definition initial : State :=
  {| voices := []; selectedVoice := None; isLoading := false; error := JNull |}.

Definition with_voices (vs : list Voice) (s : State) : State :=
  mkState vs (selectedVoice s) (isLoading s) (error s).
Definition with_selectedVoice (v : option Voice) (s : State) : State :=
  mkState (voices s) v (isLoading s) (error s).
Definition with_isLoading (b : bool) (s : State) : State :=
  mkState (voices s) (selectedVoice s) b (error s).
Definition with_error (e : JsVal) (s : State) : State :=
  mkState (voices s) (selectedVoice s) (isLoading s) e.

(** *** [fetchVoices] *)

(** The statement before the [try]: it has run when the request is sent. *)
Definition fetchVoices_begin : Act State unit :=
  set (λ s, with_error JNull (with_isLoading true s)).

(** The [try]/[catch], once [apiClient.getVoices()] has settled. *)
Definition fetchVoices_settle (reply : Outcome (list Voice)) : Act State unit :=
  try_catch
    (fetched ← await reply;
     set (λ s, with_isLoading false (with_voices fetched s)))
    (λ error,
       errorMessage ← call (handleAPIError error);
       set (λ s, with_isLoading false (with_error errorMessage s));;
       emit (ToastError "Fehler beim Laden der Stimmen: " errorMessage)).

Definition fetchVoices (reply : Outcome (list Voice)) : Act State unit :=
  fetchVoices_begin;; fetchVoices_settle reply.

(** *** [selectVoice] *)

Definition selectVoice (voice : option Voice) : Act State unit :=
  set (with_selectedVoice voice).

(** *** [deleteVoice] *)

(** [selectedVoice?.id === voiceId] *)
Definition selected_is (selected : option Voice) (voiceId : string) : bool :=
  match selected with
  | Some v => String.eqb (id v) voiceId
  | None => false
  end.

(** The [try]/[catch], once [apiClient.deleteVoice(voiceId)] has settled;
    [captured] is the list read by [get()] before the request was sent. *)
Definition deleteVoice_settle (voiceId : string) (captured : list Voice)
    (reply : Outcome string) : Act State unit :=
  try_catch
    (_ ← await reply;
     let updatedVoices := filter (λ v, id v ≠ voiceId) captured in
     set (with_voices updatedVoices);;
     s ← get;
     (if selected_is (selectedVoice s) voiceId
      then set (with_selectedVoice None)
      else mret tt);;
     emit (ToastSuccess "Stimme erfolgreich gelöscht"))
    (λ error,
       errorMessage ← call (handleAPIError error);
       emit (ToastError "Fehler beim Löschen: " errorMessage);;
       throw error).

Definition deleteVoice (voiceId : string) (reply : Outcome string)
  : Act State unit :=
  s ← get;
  deleteVoice_settle voiceId (voices s) reply.

(** *** [cloneVoice] *)

Definition cloneVoice_begin : Act State unit :=
  set (λ s, with_error JNull (with_isLoading true s)).

Definition dquote : string := String (ascii_of_nat 34) EmptyString.

(** The [try]/[catch], once [apiClient.cloneVoice(request)] has settled;
    [now] is what [new Date().toISOString()] reads. *)
Definition cloneVoice_settle (request : VoiceCloneRequest) (now : string)
    (reply : Outcome VoiceCloneReply) : Act State string :=
  try_catch
    (response ← await reply;
     let newVoice :=
       {| id := voice_id response;
          name := clone_name request;
          description := clone_description request;
          status := Status.processing;
          created_at := now;
          language := None;
          sample_count := Z.of_nat (length (clone_files request));
          duration := None;
          preview_url := None |} in
     s ← get;
     set (λ s', with_isLoading false (with_voices (newVoice :: voices s) s'));;
     emit (ToastSuccess
             ("Voice Cloning für " +:+ dquote +:+ clone_name request
                +:+ dquote +:+ " gestartet"));;
     mret (voice_id response))
    (λ error,
       errorMessage ← call (handleAPIError error);
       set (λ s, with_isLoading false (with_error errorMessage s));;
       emit (ToastError "Fehler beim Voice Cloning: " errorMessage);;
       throw error).

Definition cloneVoice (request : VoiceCloneRequest) (now : string)
    (reply : Outcome VoiceCloneReply) : Act State string :=
  cloneVoice_begin;; cloneVoice_settle request now reply.

(** Number of entries of a voice list that carry a given id. *)
Definition occurrences (voiceId : string) (vs : list Voice) : nat :=
  length (filter (λ v, id v = voiceId) vs).

(** The provisional record [cloneVoice] inserts. *)
Definition provisional (request : VoiceCloneRequest) (now : string)
    (response : VoiceCloneReply) : Voice :=
  {| id := voice_id response;
     name := clone_name request;
     description := clone_description request;
     status := Status.processing;
     created_at := now;
     language := None;
     sample_count := Z.of_nat (length (clone_files request));
     duration := None;
     preview_url := None |}.

End VoiceStore.

(** ** [store/useTTSStore.ts] *)

Module TTSStore.

Record State : Type := mkState {
  isGenerating : bool;
  currentAudio : option TTSResponse;
  history : list TTSResponse
}.

Definition initial : State :=
  {| isGenerating := false; currentAudio := None; history := [] |}.

Definition with_isGenerating (b : bool) (s : State) : State :=
  mkState b (currentAudio s) (history s).

Definition generateSpeech_begin : Act State unit :=
  set (with_isGenerating true).

(** The [try]/[catch], once [apiClient.generateSpeech(request)] has
    settled with [reply]. *)
Definition generateSpeech_settle (reply : Outcome TTSResponse)
  : Act State TTSResponse :=
  try_catch
    (response ← await reply;
     s ← get;
     let updatedHistory := response :: take 19 (history s) in
     set (λ _, {| currentAudio := Some response;
                  history := updatedHistory;
                  isGenerating := false |});;
     emit (ToastSuccess "Audio erfolgreich generiert!");;
     mret response)
    (λ error,
       errorMessage ← call (handleAPIError error);
       set (with_isGenerating false);;
       emit (ToastError "Fehler bei der Audio-Generierung: " errorMessage);;
       throw error).

Definition generateSpeech (request : TTSRequest) (reply : Outcome TTSResponse)
  : Act State TTSResponse :=
  generateSpeech_begin;; generateSpeech_settle reply.

Definition clearHistory : Act State unit :=
  set (λ s, mkState (isGenerating s) None []);;
  emit (ToastSuccess "Verlauf gelöscht").

(** What the [persist] middleware writes under the key [tts-store]. *)
Record Persisted : Type := mkPersisted {
  persisted_history : list TTSResponse
}.

Definition partialize (s : State) : Persisted :=
  {| persisted_history := take 10 (history s) |}.

(** Successive calls, each settled (and its failure, if any, caught by the
    caller) before the next one starts: the state they leave. *)
Fixpoint generateSpeech_each (calls : list (TTSRequest * Outcome TTSResponse))
    (s : State) : State :=
  match calls with
  | [] => s
  | (request, reply) :: rest =>
      generateSpeech_each rest (state (generateSpeech request reply s))
  end.

(** The responses of a run of calls, in call order. *)
Definition responses (calls : list (TTSRequest * TTSResponse))
  : list TTSResponse := calls.*2.

(** The same calls with a gateway that accepts each of them. *)
Definition succeeding (calls : list (TTSRequest * TTSResponse))
  : list (TTSRequest * Outcome TTSResponse) :=
  (λ c, (c.1, Resolved c.2)) <$> calls.

End TTSStore.

(** ** [store/useSettingsStore.ts] *)

Module SettingsStore.

Record State : Type := mkState {
  settings : GenerationSettings;
  languages : list Language
}.

Definition defaultSettings : GenerationSettings :=
  {| temperature := 0.7; speed := 1.0; settings_language := "de" |}.

Definition initial : State :=
  {| settings := defaultSettings; languages := [] |}.

Definition fallbackLanguages : list Language :=
  [ mkLanguage "de" "Deutsch";
    mkLanguage "en" "English";
    mkLanguage "es" "Español";
    mkLanguage "fr" "Français";
    mkLanguage "it" "Italiano";
    mkLanguage "pt" "Português" ].

(** [reply] is what [apiClient.getLanguages()] settles with. *)
Definition fetchLanguages (reply : Outcome LanguagesReply) : Act State unit :=
  try_catch
    (response ← await reply;
     set (λ s, mkState (settings s) (reply_languages response)))
    (λ error,
       errorMessage ← call (handleAPIError error);
       emit (ConsoleError "Failed to fetch languages:" errorMessage);;
       set (λ s, mkState (settings s) fallbackLanguages)).

Definition partialize (s : State) : GenerationSettings := settings s.

(** [Partial<GenerationSettings>]: the keys a caller passes, each with the
    value it carries ([None]: the key is absent; a key that is present with
    the value [undefined] is not represented). *)
Record PartialSettings : Type := mkPartialSettings {
  new_temperature : option Q;
  new_speed : option Q;
  new_language : option string
}.

(** [{ ...settings, ...newSettings }] *)
Definition spread (settings : GenerationSettings)
    (newSettings : PartialSettings) : GenerationSettings :=
  {| temperature := default (temperature settings) (new_temperature newSettings);
     speed := default (speed settings) (new_speed newSettings);
     settings_language :=
       default (settings_language settings) (new_language newSettings) |}.

Definition updateSettings (newSettings : PartialSettings) : Act State unit :=
  s ← get;
  let updatedSettings := spread (settings s) newSettings in
  set (λ s', mkState updatedSettings (languages s')).

(** The keys of [later], and those of [earlier] that [later] lacks. *)
Definition overlay (earlier later : PartialSettings) : PartialSettings :=
  {| new_temperature :=
       match new_temperature later with
       | Some t => Some t | None => new_temperature earlier end;
     new_speed :=
       match new_speed later with
       | Some v => Some v | None => new_speed earlier end;
     new_language :=
       match new_language later with
       | Some l => Some l | None => new_language earlier end |}.

End SettingsStore.

(** ** Concrete inputs used in examples *)

Module Samples.

(** The four cases of the specification's test list. *)
Definition failure_with_detail : JsVal :=
  JObj [("message", JStr "Request failed with status code 400");
        ("response", JObj [("status", JNum 400);
                           ("data", JObj [("detail", JStr "D")])])].
Definition failure_with_message : JsVal :=
  JObj [("message", JStr "Request failed with status code 500");
        ("response", JObj [("status", JNum 500);
                           ("data", JObj [("message", JStr "M")])])].
Definition failure_transport : JsVal :=
  JObj [("message", JStr "timeout")].
Definition failure_anonymous : JsVal := JObj [].

(** A server body whose [detail] is the empty string. *)
Definition failure_empty_detail : JsVal :=
  JObj [("message", JStr "timeout");
        ("response", JObj [("status", JNum 500);
                           ("data", JObj [("detail", JStr "")])])].

Definition sample_wav : File :=
  {| file_name := "sample.wav"; file_type := "audio/wav";
     file_size := 52428801; file_lastModified := 0 |}.

Definition sample_video : File :=
  {| file_name := "clip.mp4"; file_type := "video/mp4";
     file_size := 52428801; file_lastModified := 0 |}.

Import TTSStore.

Definition sample_request (text : string) : TTSRequest :=
  {| req_text := text; req_voice_id := "voice-1"; req_language := "de";
     req_speed := 1.0; req_temperature := 0.7 |}.

Definition sample_response (text : string) : TTSResponse :=
  {| audio_url := "/outputs/tts-" +:+ text +:+ ".wav";
     filename := "tts-" +:+ text +:+ ".wav";
     res_duration := 2.5;
     res_text := text;
     res_voice_id := "voice-1";
     generated_at := "2023-01-01T00:00:00Z" |}.

Definition sample_calls : list (TTSRequest * TTSResponse) :=
  (λ t, (sample_request t, sample_response t)) <$>
  ["a"; "b"; "c"; "d"; "e"; "f"; "g"; "h"; "i"; "j"; "k"]%string.

Import VoiceStore.

Definition voice_1 : Voice :=
  {| id := "voice-1"; name := "Test Voice 1";
     description := "A test voice for unit testing";
     status := Status.ready; created_at := "2023-01-01T00:00:00Z";
     language := Some "en"; sample_count := 3; duration := Some 15.5%Q;
     preview_url := Some "/voices/voice-1/preview.wav" |}.

Definition voice_2 : Voice :=
  {| id := "voice-2"; name := "Test Voice 2";
     description := "Another test voice";
     status := Status.processing; created_at := "2023-01-02T00:00:00Z";
     language := Some "de"; sample_count := 5; duration := Some 22.3%Q;
     preview_url := None |}.

(** A registry that knows both voices and has the second one selected. *)
Definition two_voices : State :=
  {| voices := [voice_1; voice_2]; selectedVoice := Some voice_2;
     isLoading := false; VoiceStore.error := JNull |}.

(** A registry whose list misses the first voice. *)
Definition stale : State :=
  {| voices := [voice_2]; selectedVoice := None;
     isLoading := false; VoiceStore.error := JNull |}.

End Samples.

(** ** Runs of store actions *)

Module TTSRuns.
Import TTSStore.

(** What a page can ask of the generation store. *)
Inductive Action : Type :=
| Generate (request : TTSRequest) (reply : Outcome TTSResponse)
| Clear.

(** The state an action leaves once it has settled; what it throws is
    caught by the caller. *)
Definition perform (a : Action) (s : State) : State :=
  match a with
  | Generate request reply => state (generateSpeech request reply s)
  | Clear => state (clearHistory s)
  end.

Definition perform_all (actions : list Action) (s : State) : State :=
  foldl (λ s a, perform a s) s actions.

(** The responses of the calls the gateway accepted, in call order. *)
Definition resolved (calls : list (TTSRequest * Outcome TTSResponse))
  : list TTSResponse :=
  omap (λ c, match c.2 with Resolved r => Some r | Rejected _ => None end)
       calls.

End TTSRuns.

Module VoiceRuns.
Import VoiceStore.

(** Two [deleteVoice] calls issued back to back: each reads the list and
    sends its request before the reply to the other arrives; the replies
    are then handled in the order of the calls. *)
Definition overlapping_deletes (first second : string)
    (reply1 reply2 : Outcome string) (s : State) : State :=
  let captured1 := voices s in
  let captured2 := voices s in
  let s1 := state (deleteVoice_settle first captured1 reply1 s) in
  state (deleteVoice_settle second captured2 reply2 s1).

(** The same two calls, the second issued after the first has settled. *)
Definition successive_deletes (first second : string)
    (reply1 reply2 : Outcome string) (s : State) : State :=
  state (deleteVoice second reply2 (state (deleteVoice first reply1 s))).

End VoiceRuns.

(** ** [utils/api.ts]: formatting *)

Module Format.

Fixpoint fill_string (n : nat) (c : ascii) : string :=
  match n with
  | O => ""
  | S n' => String c (fill_string n' c)
  end.

(** [s.padStart(targetLength, fill)] for a one-character [fill]. *)
Definition padStart (targetLength : nat) (fill : ascii) (s : string) : string :=
  fill_string (targetLength - String.length s) fill +:+ s.

(** [formatDuration] on a whole number of seconds ([pretty] is the decimal
    text that [toString] gives for an integer).  For integers below 2^53 in
    magnitude the division by 60 and the remainder are exact in floating
    point, so that [Math.floor(seconds / 60)] is the floor quotient and
    [Math.floor(seconds % 60)] the remainder with the sign of [seconds]. *)
Definition formatDuration (seconds : Z) : string :=
  let mins := seconds `div` 60 in
  let secs := seconds `rem` 60 in
  pretty mins +:+ ":" +:+ padStart 2 "0" (pretty secs).

End Format.

(** ** [test/mocks/handlers.ts] and the form built by [apiClient.cloneVoice] *)

Module Mocks.

(** [HttpResponse.json(body)] or [new HttpResponse(null, { status })]. *)
Inductive HttpReply (A : Type) : Type :=
| Json (body : A)
| Empty (status : Z).
Arguments Json {A} body.
Arguments Empty {A} status.

(** [Array.prototype.findIndex]; [None] stands for -1. *)
Fixpoint findIndex {A} (p : A → bool) (l : list A) : option nat :=
  match l with
  | [] => None
  | x :: rest => if p x then Some O else S <$> findIndex p rest
  end.

(** [DELETE /api/voices/:voiceId]: the reply and [mockVoices] afterwards
    ([delete i l] is [l.splice(i, 1)]). *)
Definition delete_handler (voiceId : string) (mockVoices : list Voice)
  : HttpReply string * list Voice :=
  match findIndex (λ v, String.eqb (id v) voiceId) mockVoices with
  | None => (Empty 404, mockVoices)
  | Some voiceIndex =>
      (Json ("Stimme " +:+ voiceId +:+ " erfolgreich gelöscht"),
       delete voiceIndex mockVoices)
  end.










End Mocks.

(** ** Pages *)

Module VoicesPage.

#[global] Instance VoiceStatus_eq_dec : EqDecision VoiceStatus.
Proof. solve_decision. Defined.

Definition readyVoices (voices : list Voice) : list Voice :=
  filter (λ v, status v = Status.ready) voices.
Definition processingVoices (voices : list Voice) : list Voice :=
  filter (λ v, status v = Status.processing ∨ status v = Status.training)
         voices.
Definition errorVoices (voices : list Voice) : list Voice :=
  filter (λ v, status v = Status.error) voices.

Record State : Type := mkState {
  playingId : option string;
  deleteConfirm : option string
}.

(** What a handler leaves: the page state, the store state, the events of
    the store action it ran, and the delays of the timers it started. *)
Record Handled : Type := mkHandled {
  page : State;
  store : VoiceStore.State;
  store_events : list Event;
  timers : list Z
}.

(** [deleteConfirm === voiceId] *)
Definition confirms (deleteConfirm : option string) (voiceId : string) : bool :=
  match deleteConfirm with
  | Some armed => String.eqb armed voiceId
  | None => false
  end.

(** [reply] is what the gateway answers if the handler calls it. *)
Definition handleDelete (voiceId : string) (reply : Outcome string)
    (p : State) (st : VoiceStore.State) : Handled :=
  if confirms (deleteConfirm p) voiceId then
    let ran := VoiceStore.deleteVoice voiceId reply st in
    match completion ran with
    | Returns _ =>
        mkHandled (mkState (playingId p) None) (state ran) (events ran) []
    | Throws _ =>
        (* Error handled in store *)
        mkHandled p (state ran) (events ran) []
    end
  else
    mkHandled (mkState (playingId p) (Some voiceId)) st [] [3000].

End VoicesPage.

Module VoiceClonePage.

Record AudioFile : Type := mkAudioFile {
  af_id : string;
  af_file : File;
  af_name : string;
  af_size : Z;
  af_duration : option Q;
  af_preview : option string
}.

Record State : Type := mkState {
  audioFiles : list AudioFile;
  voiceName : string;
  voiceDescription : string;
  playingId : option string
}.

(** What the browser answers for one dropped file, asked only when the file
    has passed validation: the duration [getAudioDuration] resolves with, the
    object URL and the random id; or a failure to load the audio. *)
Inductive Decoded : Type :=
| DecodeOk (duration : Q) (preview : string) (random_id : string)
| DecodeError.

(** A toast of the page: [toast.error(text)], [None] for [undefined]. *)
Definition PageToast : Type := option string.

(** The [for] loop of [onDrop]: the files it stages and its toasts. *)
Fixpoint onDrop_loop (acceptedFiles : list (File * Decoded))
  : list AudioFile * list PageToast :=
  match acceptedFiles with
  | [] => ([], [])
  | (file, decoded) :: rest =>
      let '(newFiles, toasts) := onDrop_loop rest in
      let validation := validateAudioFile file in
      if negb (valid validation) then
        (newFiles, Api.error validation :: toasts)
      else
        match decoded with
        | DecodeOk duration preview random_id =>
            (mkAudioFile random_id file (file_name file) (file_size file)
                         (Some duration) (Some preview) :: newFiles,
             toasts)
        | DecodeError =>
            (newFiles,
             Some ("Fehler beim Verarbeiten von " +:+ file_name file)
               :: toasts)
        end
  end.

Definition onDrop (acceptedFiles : list (File * Decoded)) (p : State)
  : State * list PageToast :=
  let '(newFiles, toasts) := onDrop_loop acceptedFiles in
  (mkState (audioFiles p ++ newFiles)%list (voiceName p) (voiceDescription p)
           (playingId p),
   toasts).

(** [removeFile]: the page state and the object URLs it revokes. *)
Definition removeFile (id : string) (p : State) : State * list string :=
  let file := List.find (λ f, String.eqb (af_id f) id) (audioFiles p) in
  let revoked :=
    match file with
    | Some f =>
        match af_preview f with
        | Some url => if negb (String.eqb url "") then [url] else []
        | None => []
        end
    | None => []
    end in
  (mkState (filter (λ f, af_id f ≠ id) (audioFiles p)) (voiceName p)
           (voiceDescription p) (playingId p),
   revoked).

(** The request that [handleSubmit] passes to [cloneVoice]. *)
Definition submitted (p : State) : VoiceCloneRequest :=
  {| clone_name := voiceName p;
     clone_description := voiceDescription p;
     clone_files := af_file <$> audioFiles p |}.

Record Handled : Type := mkHandled {
  page : State;
  store : VoiceStore.State;
  store_events : list Event;
  page_toasts : list PageToast
}.

(** [handleSubmit]; [trim] stands for [String.prototype.trim], [now] and
    [reply] are the clock reading and the gateway's answer if the handler
    gets as far as calling the store. *)
Definition handleSubmit (trim : string → string) (now : string)
    (reply : Outcome VoiceCloneReply) (p : State) (st : VoiceStore.State)
  : Handled :=
  if String.eqb (trim (voiceName p)) "" then
    mkHandled p st []
              [Some "Bitte geben Sie einen Namen für die Stimme ein"]
  else if (length (audioFiles p) =? 0)%nat then
    mkHandled p st []
              [Some "Bitte laden Sie mindestens eine Audio-Datei hoch"]
  else
    let ran := VoiceStore.cloneVoice (submitted p) now reply st in
    match completion ran with
    | Returns _ =>
        mkHandled (mkState [] "" "" (playingId p)) (state ran) (events ran) []
    | Throws _ =>
        (* Error is handled in the store *)
        mkHandled p (state ran) (events ran) []
    end.

End VoiceClonePage.

(** ** [components/ui/ProgressBar.tsx] *)

Module ProgressBar.

(** [Math.max(0, Math.min(100, progress))] on a finite number (every finite
    double is a rational; [NaN] and the infinities are left out). *)
Definition clampedProgress (progress : Q) : Q := Qmax 0 (Qmin 100 progress).

(** [Math.round]: the nearest integer, halves rounded up. *)
Definition round (x : Q) : Z := Qfloor (x + (1 # 2))%Q.

(** The percentage shown in the label. *)
Definition label (progress : Q) : Z := round (clampedProgress progress).

End ProgressBar.

(** * Properties *)

(** ** Reading properties and normalising errors *)

Section HandleAPIError.

Lemma member_opt_member v k :
  nullish v = false → member v k = Returns (opt_member v k).
Proof. by destruct v. Qed.

Lemma opt_member_truthy_base v k :
  truthy (opt_member v k) = true → nullish v = false.
Proof. by destruct v. Qed.

Lemma response_field_body error k :
  nullish error = false → response_field error k = Returns (body_field error k).
Proof.
  intros Hn. unfold response_field, body_field.
  by rewrite (member_opt_member _ _ Hn).
Qed.

(** Once the optional chain has produced a truthy value, the plain chain of
    the [return] statement reads the same value and cannot throw. *)
Lemma response_field_strict_body error k :
  nullish error = false →
  truthy (body_field error k) = true →
  response_field_strict error k = Returns (body_field error k).
Proof.
  intros Hn Ht. unfold response_field_strict, body_field in *.
  rewrite (member_opt_member _ _ Hn). cbn.
  pose proof (opt_member_truthy_base _ _ Ht) as Hdata.
  assert (nullish (opt_member error "response") = false) as Hresp.
  { destruct (opt_member error "response"); try done. }
  rewrite (member_opt_member _ _ Hresp). cbn.
  by rewrite (member_opt_member _ _ Hdata).
Qed.

Lemma handleAPIError_nullish error :
  nullish error = true →
  handleAPIError error = Throws (TypeError error "response").
Proof. by destruct error. Qed.

Lemma handleAPIError_unfold error :
  nullish error = false →
  handleAPIError error = Returns (normalized error).
Proof.
  intros Hn. unfold handleAPIError, normalized. cbn [first_truthy].
  rewrite !(response_field_body _ _ Hn), !(member_opt_member _ _ Hn).
  change (mbind ?f (Returns ?a)) with (f a). cbv beta.
  destruct (truthy (body_field error "detail")) eqn:Hd.
  { by apply response_field_strict_body. }
  change (mbind ?f (Returns ?a)) with (f a). cbv beta.
  destruct (truthy (body_field error "message")) eqn:Hm.
  { by apply response_field_strict_body. }
  change (mbind ?f (Returns ?a)) with (f a). cbv beta.
  by destruct (truthy (opt_member error "message")).
Qed.

Lemma handleAPIError_object props :
  ∃ v, handleAPIError (JObj props) = Returns v.
Proof. rewrite handleAPIError_unfold by done. eauto. Qed.

End HandleAPIError.

(** Runs the [catch] block of a store action whose gateway call was
    rejected: the monad is unfolded and the call of [handleAPIError] is
    replaced by the message it returns. *)
Ltac run_catch :=
  unfold try_catch, call, mbind, act_bind;
  cbn -[handleAPIError normalized filter];
  rewrite handleAPIError_unfold by reflexivity;
  try reflexivity.

Section HandleAPIErrorCases.

Import Samples.

Lemma truthy_string s : truthy (JStr s) = true ↔ s ≠ "".
Proof.
  cbn. rewrite negb_true_iff. split.
  - intros H ->. by rewrite String.eqb_refl in H.
  - intros H. by apply String.eqb_neq.
Qed.

Example handleAPIError_detail :
  handleAPIError failure_with_detail = Returns (JStr "D").
Proof. reflexivity. Qed.

Example handleAPIError_message :
  handleAPIError failure_with_message = Returns (JStr "M").
Proof. reflexivity. Qed.

Example handleAPIError_transport :
  handleAPIError failure_transport = Returns (JStr "timeout").
Proof. reflexivity. Qed.

Example handleAPIError_fallback :
  handleAPIError failure_anonymous = Returns (JStr fallback_message).
Proof. reflexivity. Qed.

(** C1, as stated, fails: a failure whose response body carries a [detail]
    field holding the empty string does not get that detail back; the
    truthiness test skips it and the error's own message is returned. *)
Lemma handleAPIError_empty_detail_skipped :
  body_field failure_empty_detail "detail" = JStr "" ∧
  handleAPIError failure_empty_detail = Returns (JStr "timeout") ∧
  handleAPIError failure_empty_detail ≠ Returns (JStr "").
Proof. repeat split. discriminate. Qed.

(** C1 (amended): for every failure value other than [null] and
    [undefined], [handleAPIError] returns the first truthy value (for a
    string: the first non-empty one) among the response body's [detail], the
    response body's [message] and the error's own [message], in this order,
    and the fixed fallback text when none of them is truthy. *)
Theorem handleAPIError_ordered_fallback (error : JsVal) :
  nullish error = false →
  let detail := body_field error "detail" in
  let message := body_field error "message" in
  let own := opt_member error "message" in
  (truthy detail = true → handleAPIError error = Returns detail) ∧
  (truthy detail = false → truthy message = true →
   handleAPIError error = Returns message) ∧
  (truthy detail = false → truthy message = false → truthy own = true →
   handleAPIError error = Returns own) ∧
  (truthy detail = false → truthy message = false → truthy own = false →
   handleAPIError error = Returns (JStr fallback_message)) ∧
  (∀ s, truthy (JStr s) = true ↔ s ≠ "").
Proof.
  intros Hn detail message own.
  rewrite (handleAPIError_unfold _ Hn). unfold normalized. cbn [first_truthy].
  fold detail message own.
  repeat split; try (by apply truthy_string).
  - by intros ->.
  - by intros -> ->.
  - by intros -> -> ->.
  - by intros -> -> ->.
Qed.

Lemma handleAPIError_ordered_fallback_witness :
  nullish failure_with_message = false ∧
  truthy (body_field failure_with_message "detail") = false ∧
  truthy (body_field failure_with_message "message") = true ∧
  handleAPIError failure_with_message = Returns (JStr "M").
Proof.
  split; [reflexivity|]. split; [reflexivity|]. split; [reflexivity|].
  exact (proj1 (proj2 (handleAPIError_ordered_fallback
                         failure_with_message eq_refl)) eq_refl eq_refl).
Defined.

End HandleAPIErrorCases.

(** ** File intake validation *)

Section ValidateAudioFile.

Import Samples.

Lemma includes_elem_of l x : includes l x = true ↔ x ∈ l.
Proof.
  unfold includes. rewrite existsb_exists. split.
  - intros (y & Hy & He). apply String.eqb_eq in He. subst.
    by apply list_elem_of_In.
  - intros H. exists x. split; [by apply list_elem_of_In|].
    apply String.eqb_refl.
Qed.

Lemma includes_not_elem_of l x : includes l x = false ↔ x ∉ l.
Proof.
  rewrite <- includes_elem_of. by destruct (includes l x).
Qed.

Lemma validateAudioFile_disallowed file :
  file_type file ∉ validTypes →
  validateAudioFile file = {| valid := false; error := Some type_error |}.
Proof.
  intros H. apply includes_not_elem_of in H.
  unfold validateAudioFile. by rewrite H.
Qed.

Lemma type_error_not_size_error : type_error ≠ size_error.
Proof. discriminate. Qed.

(** C2: a file whose MIME type is outside the allow-list is invalid with
    the type reason; a file of an allowed type larger than 50 MiB is invalid
    with the size reason; every other file is valid; and the result depends
    on the type and the size of the file only. *)
Theorem validateAudioFile_spec (file : File) :
  validTypes =
    ["audio/wav"; "audio/mp3"; "audio/mpeg"; "audio/ogg"; "audio/webm"] ∧
  maxSize = 52428800 ∧
  (file_type file ∉ validTypes →
   validateAudioFile file = {| valid := false; error := Some type_error |}) ∧
  (file_type file ∈ validTypes → file_size file > maxSize →
   validateAudioFile file = {| valid := false; error := Some size_error |}) ∧
  (file_type file ∈ validTypes → file_size file ≤ maxSize →
   validateAudioFile file = {| valid := true; error := None |}) ∧
  (∀ other, file_type other = file_type file →
            file_size other = file_size file →
            validateAudioFile other = validateAudioFile file).
Proof.
  split; [done|]. split; [done|]. split; [apply validateAudioFile_disallowed|].
  repeat split.
  - intros Hin Hsz. apply includes_elem_of in Hin.
    unfold validateAudioFile. rewrite Hin. cbn.
    destruct (Z.gtb_spec (file_size file) maxSize); [done | lia].
  - intros Hin Hsz. apply includes_elem_of in Hin.
    unfold validateAudioFile. rewrite Hin. cbn.
    destruct (Z.gtb_spec (file_size file) maxSize); [lia | done].
  - intros other Ht Hs. unfold validateAudioFile. by rewrite Ht, Hs.
Qed.

Lemma validateAudioFile_spec_witness :
  file_type sample_wav ∈ validTypes ∧ file_size sample_wav > maxSize ∧
  validateAudioFile sample_wav = {| valid := false; error := Some size_error |}.
Proof.
  assert (file_type sample_wav ∈ validTypes) as Hin
    by (apply includes_elem_of; reflexivity).
  assert (file_size sample_wav > maxSize) as Hsz by reflexivity.
  split; [exact Hin|]. split; [exact Hsz|].
  exact (proj1 (proj2 (proj2 (proj2 (validateAudioFile_spec sample_wav))))
           Hin Hsz).
Defined.

(** C10: a file whose type is outside the allow-list and whose size exceeds
    50 MiB gets the type reason, not the size reason; for a disallowed type
    the size has no influence on the result. *)
Theorem validateAudioFile_type_before_size (file : File) :
  file_type file ∉ validTypes →
  file_size file > maxSize →
  Api.error (validateAudioFile file) = Some type_error ∧
  Api.error (validateAudioFile file) ≠ Some size_error ∧
  valid (validateAudioFile file) = false ∧
  (∀ size, validateAudioFile
             (mkFile (file_name file) (file_type file) size
                     (file_lastModified file))
           = validateAudioFile file).
Proof.
  intros Hty _. rewrite (validateAudioFile_disallowed _ Hty).
  split; [done|]. split.
  { intros H. apply type_error_not_size_error. by injection H. }
  split; [done|].
  intros size. by rewrite validateAudioFile_disallowed.
Qed.

Lemma validateAudioFile_type_before_size_witness :
  (file_type sample_video ∉ validTypes) ∧ file_size sample_video > maxSize ∧
  Api.error (validateAudioFile sample_video) = Some type_error.
Proof.
  assert (file_type sample_video ∉ validTypes) as Hty
    by (apply includes_not_elem_of; reflexivity).
  assert (file_size sample_video > maxSize) as Hsz by reflexivity.
  split; [exact Hty|]. split; [exact Hsz|].
  exact (proj1 (validateAudioFile_type_before_size sample_video Hty Hsz)).
Defined.

End ValidateAudioFile.

(** ** Generation history store *)

Section TTSStoreProperties.

Import TTSStore Samples.
Local Open Scope nat_scope.

Lemma generateSpeech_resolved request response s :
  generateSpeech request (Resolved response) s =
  mkRan (Returns response)
        {| isGenerating := false;
           currentAudio := Some response;
           history := response :: take 19 (history s) |}
        [ToastSuccess "Audio erfolgreich generiert!"].
Proof. reflexivity. Qed.

Lemma generateSpeech_rejected request error s :
  generateSpeech request (Rejected error) s =
  mkRan (Throws (JObj error))
        {| isGenerating := false;
           currentAudio := currentAudio s;
           history := history s |}
        [ToastError "Fehler bei der Audio-Generierung: "
                    (normalized (JObj error))].
Proof.
  unfold generateSpeech, generateSpeech_settle. run_catch.
Qed.

Lemma take_app_take {A} (n k : nat) (l1 l2 : list A) :
  n ≤ length l1 + k → take n (l1 ++ take k l2) = take n (l1 ++ l2).
Proof.
  intros Hle. rewrite !take_app, take_take. f_equal. f_equal. lia.
Qed.

Lemma generateSpeech_each_history calls s :
  length (history s) ≤ 20 →
  history (generateSpeech_each (succeeding calls) s) =
  take 20 (reverse (responses calls) ++ history s).
Proof.
  revert s. induction calls as [|[request response] rest IH]; intros s Hlen.
  - cbn. by rewrite take_ge.
  - cbn [succeeding fmap list_fmap generateSpeech_each fst snd].
    rewrite generateSpeech_resolved. cbn [state].
    rewrite IH; cbn [history].
    + unfold responses. cbn [fmap list_fmap snd]. rewrite reverse_cons.
      rewrite (cons_middle response), (assoc_L (++)).
      apply take_app_take. rewrite length_app. cbn. lia.
    + cbn. rewrite length_take. lia.
Qed.

(** C3: after N > 10 successive successful generations started from an
    empty history, the in-memory history holds exactly min(N, 20) entries,
    the persisted slice exactly 10, both most recent first: entry [i] is the
    response of call number N - 1 - i (calls counted from 0). *)
Theorem generateSpeech_history_caps
    (calls : list (TTSRequest * TTSResponse)) (s : State) :
  history s = [] →
  10 < length calls →
  let N := length calls in
  let final := generateSpeech_each (succeeding calls) s in
  let kept := history final in
  let saved := persisted_history (partialize final) in
  kept = take 20 (reverse (responses calls)) ∧
  length kept = N `min` 20 ∧
  (∀ i, i < N `min` 20 → kept !! i = responses calls !! (N - 1 - i)) ∧
  saved = take 10 (reverse (responses calls)) ∧
  length saved = 10 ∧
  (∀ i, i < 10 → saved !! i = responses calls !! (N - 1 - i)).
Proof.
  intros Hempty HN N final kept saved.
  assert (length (responses calls) = N) as HlenR
    by (unfold responses; by rewrite length_fmap).
  assert (kept = take 20 (reverse (responses calls))) as Hkept.
  { unfold kept, final. rewrite generateSpeech_each_history.
    - by rewrite Hempty, app_nil_r.
    - rewrite Hempty. cbn. lia. }
  assert (∀ i, i < N → reverse (responses calls) !! i
                       = responses calls !! (N - 1 - i)) as Hrev.
  { intros i Hi. rewrite reverse_lookup by lia.
    f_equal. lia. }
  assert (saved = take 10 (reverse (responses calls))) as Hsaved.
  { unfold saved, partialize. cbn [persisted_history]. fold kept.
    rewrite Hkept, take_take. done. }
  split; [exact Hkept|]. split.
  { rewrite Hkept, length_take, length_reverse. lia. }
  split.
  { intros i Hi. rewrite Hkept, lookup_take_lt by lia. apply Hrev. lia. }
  split; [exact Hsaved|]. split.
  { rewrite Hsaved, length_take, length_reverse. lia. }
  intros i Hi. rewrite Hsaved, lookup_take_lt by lia. apply Hrev. lia.
Qed.

Lemma generateSpeech_history_caps_witness :
  history initial = [] ∧ 10 < length sample_calls ∧
  length (persisted_history
            (partialize (generateSpeech_each (succeeding sample_calls)
                                             initial))) = 10.
Proof.
  assert (history initial = []) as Hempty by reflexivity.
  assert (10 < length sample_calls) as HN by (cbn; lia).
  split; [exact Hempty|]. split; [exact HN|].
  exact (proj1 (proj2 (proj2 (proj2 (proj2
           (generateSpeech_history_caps sample_calls initial Hempty HN)))))).
Defined.

(** C6: when the gateway rejects, [generateSpeech] throws that very
    rejection to its caller, leaves [isGenerating] cleared, and leaves the
    history (and the current result) exactly as they were; the flag had been
    raised while the request was pending. *)
Theorem generateSpeech_failure_keeps_history
    (request : TTSRequest) (error : list (string * JsVal)) (s : State) :
  let ran := generateSpeech request (Rejected error) s in
  completion ran = Throws (JObj error) ∧
  isGenerating (state (generateSpeech_begin s)) = true ∧
  isGenerating (state ran) = false ∧
  history (state ran) = history s ∧
  currentAudio (state ran) = currentAudio s.
Proof. cbv zeta. by rewrite generateSpeech_rejected. Qed.

(** C9: whatever the state before, [clearHistory()] followed by one
    successful [generateSpeech(request)] leaves a history of exactly one
    entry, the response of that generation, which is also [currentAudio]. *)
Theorem clearHistory_then_generateSpeech
    (request : TTSRequest) (response : TTSResponse) (s : State) :
  let ran := (clearHistory;; generateSpeech request (Resolved response)) s in
  completion ran = Returns response ∧
  history (state ran) = [response] ∧
  length (history (state ran)) = 1 ∧
  currentAudio (state ran) = Some response ∧
  history (state (clearHistory s)) = [] ∧
  currentAudio (state (clearHistory s)) = None.
Proof. done. Qed.

End TTSStoreProperties.

(** ** Settings store *)

Section SettingsStoreProperties.

Import SettingsStore.
Local Open Scope nat_scope.

Lemma fetchLanguages_rejected error s :
  fetchLanguages (Rejected error) s =
  mkRan (Returns tt)
        {| settings := settings s; languages := fallbackLanguages |}
        [ConsoleError "Failed to fetch languages:" (normalized (JObj error))].
Proof.
  unfold fetchLanguages. run_catch.
Qed.

(** C7: when the gateway answers, [fetchLanguages] replaces the language
    list by the fetched one; when it rejects, the list becomes the fixed
    six-entry fallback, in the order de, en, es, fr, it, pt, whatever it was
    before, and nothing reaches the user: the action completes normally and
    emits a console line only, no toast. *)
Theorem fetchLanguages_spec (s : State) :
  (∀ response,
     let ran := fetchLanguages (Resolved response) s in
     completion ran = Returns tt ∧
     languages (state ran) = reply_languages response ∧
     settings (state ran) = settings s ∧
     events ran = []) ∧
  (∀ error,
     let ran := fetchLanguages (Rejected error) s in
     completion ran = Returns tt ∧
     languages (state ran) = fallbackLanguages ∧
     code <$> languages (state ran) = ["de"; "en"; "es"; "fr"; "it"; "pt"] ∧
     length (languages (state ran)) = 6 ∧
     settings (state ran) = settings s ∧
     events ran = [ConsoleError "Failed to fetch languages:"
                                (normalized (JObj error))]).
Proof.
  split.
  - done.
  - intros error. cbv zeta. by rewrite fetchLanguages_rejected.
Qed.

End SettingsStoreProperties.

(** ** Voice registry store *)

Section VoiceStoreProperties.

Import Samples VoiceStore.
Local Open Scope nat_scope.
Local Open Scope list_scope.

Lemma fetchVoices_rejected error s :
  fetchVoices (Rejected error) s =
  mkRan (Returns tt)
        {| voices := voices s;
           selectedVoice := selectedVoice s;
           isLoading := false;
           VoiceStore.error := normalized (JObj error) |}
        [ToastError "Fehler beim Laden der Stimmen: " (normalized (JObj error))].
Proof.
  unfold fetchVoices, fetchVoices_settle. run_catch.
Qed.

(** C8: [fetchVoices] first raises the loading flag (and clears the error);
    when the gateway answers, the voice list is replaced by the fetched one
    and the error stays [null]; when it rejects, the voice list is the one
    from before and the error field holds the message that [handleAPIError]
    extracts from the rejection. *)
Theorem fetchVoices_spec (s : State) :
  isLoading (state (fetchVoices_begin s)) = true ∧
  VoiceStore.error (state (fetchVoices_begin s)) = JNull ∧
  voices (state (fetchVoices_begin s)) = voices s ∧
  (∀ fetched,
     let ran := fetchVoices (Resolved fetched) s in
     completion ran = Returns tt ∧
     voices (state ran) = fetched ∧
     VoiceStore.error (state ran) = JNull ∧
     isLoading (state ran) = false ∧
     selectedVoice (state ran) = selectedVoice s) ∧
  (∀ error,
     let ran := fetchVoices (Rejected error) s in
     completion ran = Returns tt ∧
     voices (state ran) = voices s ∧
     handleAPIError (JObj error) = Returns (VoiceStore.error (state ran)) ∧
     isLoading (state ran) = false ∧
     selectedVoice (state ran) = selectedVoice s).
Proof.
  repeat split.
  all: rewrite fetchVoices_rejected; cbn [state completion voices
         selectedVoice isLoading VoiceStore.error]; try done.
  by rewrite handleAPIError_unfold.
Qed.

(** *** [deleteVoice] *)

Lemma deleteVoice_resolved voiceId message s :
  deleteVoice voiceId (Resolved message) s =
  mkRan (Returns tt)
        {| voices := filter (λ v, id v ≠ voiceId) (voices s);
           selectedVoice := if selected_is (selectedVoice s) voiceId
                            then None else selectedVoice s;
           isLoading := isLoading s;
           VoiceStore.error := VoiceStore.error s |}
        [ToastSuccess "Stimme erfolgreich gelöscht"].
Proof.
  unfold deleteVoice, deleteVoice_settle, try_catch.
  unfold mbind, act_bind. cbn -[filter].
  by destruct (selected_is (selectedVoice s) voiceId).
Qed.

Lemma deleteVoice_rejected voiceId error s :
  deleteVoice voiceId (Rejected error) s =
  mkRan (Throws (JObj error)) s
        [ToastError "Fehler beim Löschen: " (normalized (JObj error))].
Proof.
  unfold deleteVoice, deleteVoice_settle. run_catch.
Qed.

Lemma filter_other_length voiceId (vs : list Voice) :
  length (filter (λ v, id v ≠ voiceId) vs) + occurrences voiceId vs
  = length vs.
Proof.
  unfold occurrences. induction vs as [|v vs IH]; [done|].
  rewrite !filter_cons. destruct (decide (id v = voiceId)) as [Heq|Hne].
  - rewrite decide_False by (intros H; by apply H). cbn. lia.
  - rewrite decide_True by done. cbn. lia.
Qed.

Lemma filter_keeps_all {A} (P : A → Prop) `{!∀ x, Decision (P x)}
    (l : list A) :
  (∀ u, u ∈ l → P u) → filter P l = l.
Proof.
  induction l as [|x l IH]; intros Hall; [done|].
  rewrite filter_cons_True by (apply Hall; left).
  f_equal. apply IH. intros u Hu. apply Hall. by right.
Qed.

Lemma filter_other_single voiceId (before after : list Voice) v :
  id v = voiceId →
  (∀ u, u ∈ before ++ after → id u ≠ voiceId) →
  filter (λ u, id u ≠ voiceId) (before ++ v :: after) = before ++ after.
Proof.
  intros Hv Hothers. rewrite filter_app, filter_cons_False.
  - rewrite <- filter_app. by apply filter_keeps_all.
  - intros H. by apply H.
Qed.

(** C4, as stated, fails: when the gateway deletes a voice that the local
    list does not hold, no entry is removed; and when the id occurs twice,
    both entries go. *)
Lemma deleteVoice_not_exactly_one :
  (let ran := deleteVoice "voice-1" (Resolved "deleted") stale in
   completion ran = Returns tt ∧
   voices (state ran) = voices stale ∧
   length (voices (state ran)) + 1 ≠ length (voices stale)) ∧
  (let twice := with_voices [voice_1; voice_2; voice_1] two_voices in
   let ran := deleteVoice "voice-1" (Resolved "deleted") twice in
   completion ran = Returns tt ∧
   voices (state ran) = [voice_2] ∧
   length (voices (state ran)) + 1 ≠ length (voices twice)).
Proof.
  cbv zeta. rewrite !deleteVoice_resolved.
  repeat split; try reflexivity; vm_compute; discriminate.
Qed.

(** C4 (amended): on gateway success [deleteVoice(id)] removes every entry
    whose id is the given one: exactly one entry when the id occurs exactly
    once in the list, none when it does not occur; the other entries stay,
    unchanged and in their order; [selectedVoice] becomes [null] when the
    selected voice has that id and is kept otherwise.  On gateway failure
    the state is the one from before the call and the rejection is thrown to
    the caller. *)
Theorem deleteVoice_spec (voiceId : string) (s : State) :
  (∀ message,
     let ran := deleteVoice voiceId (Resolved message) s in
     completion ran = Returns tt ∧
     voices (state ran) = filter (λ v, id v ≠ voiceId) (voices s) ∧
     (∀ v, v ∈ voices (state ran) ↔ v ∈ voices s ∧ id v ≠ voiceId) ∧
     voices (state ran) `sublist_of` voices s ∧
     length (voices (state ran)) + occurrences voiceId (voices s)
       = length (voices s) ∧
     (∀ before v after,
        voices s = before ++ v :: after →
        id v = voiceId →
        (∀ u, u ∈ before ++ after → id u ≠ voiceId) →
        voices (state ran) = before ++ after) ∧
     (selected_is (selectedVoice s) voiceId = true →
      selectedVoice (state ran) = None) ∧
     (selected_is (selectedVoice s) voiceId = false →
      selectedVoice (state ran) = selectedVoice s) ∧
     isLoading (state ran) = isLoading s ∧
     VoiceStore.error (state ran) = VoiceStore.error s) ∧
  (∀ error,
     let ran := deleteVoice voiceId (Rejected error) s in
     completion ran = Throws (JObj error) ∧
     state ran = s).
Proof.
  split.
  - intros message. cbv zeta. rewrite deleteVoice_resolved.
    cbn [state completion voices selectedVoice isLoading VoiceStore.error].
    split; [done|]. split; [done|]. split.
    { intros v. rewrite list_elem_of_filter. tauto. }
    split; [apply sublist_filter|].
    split; [apply filter_other_length|]. split.
    { intros before v after -> Hv Hothers. by apply filter_other_single. }
    split; [by intros ->|]. split; [by intros ->|]. done.
  - intros error. cbv zeta. by rewrite deleteVoice_rejected.
Qed.

Lemma deleteVoice_spec_witness :
  voices two_voices = [voice_1] ++ voice_2 :: [] ∧
  id voice_2 = "voice-2" ∧
  selected_is (selectedVoice two_voices) "voice-2" = true ∧
  voices (state (deleteVoice "voice-2" (Resolved "deleted") two_voices))
    = [voice_1] ∧
  selectedVoice (state (deleteVoice "voice-2" (Resolved "deleted") two_voices))
    = None.
Proof.
  assert (∀ u, u ∈ [voice_1] ++ [] → id u ≠ "voice-2") as Hothers.
  { intros u Hu. apply list_elem_of_singleton in Hu. by subst. }
  pose proof (proj1 (deleteVoice_spec "voice-2" two_voices) "deleted") as H.
  cbv zeta in H.
  destruct H as (_ & _ & _ & _ & _ & Hone & Hsel & _).
  split; [reflexivity|]. split; [reflexivity|]. split; [reflexivity|].
  split.
  - exact (Hone [voice_1] voice_2 [] eq_refl eq_refl Hothers).
  - exact (Hsel eq_refl).
Defined.

(** *** [cloneVoice] *)

Lemma cloneVoice_resolved request now response s :
  cloneVoice request now (Resolved response) s =
  mkRan (Returns (voice_id response))
        {| voices := provisional request now response :: voices s;
           selectedVoice := selectedVoice s;
           isLoading := false;
           VoiceStore.error := JNull |}
        [ToastSuccess ("Voice Cloning für " +:+ dquote +:+ clone_name request
                         +:+ dquote +:+ " gestartet")].
Proof. reflexivity. Qed.

Lemma cloneVoice_rejected request now error s :
  cloneVoice request now (Rejected error) s =
  mkRan (Throws (JObj error))
        {| voices := voices s;
           selectedVoice := selectedVoice s;
           isLoading := false;
           VoiceStore.error := normalized (JObj error) |}
        [ToastError "Fehler beim Voice Cloning: " (normalized (JObj error))].
Proof.
  unfold cloneVoice, cloneVoice_settle. run_catch.
Qed.

(** C5: on gateway success [cloneVoice] puts exactly one new record in
    front of the voice list: status [processing], name and description of
    the request, [sample_count] the number of files of the request,
    [created_at] the client's clock reading; the list grows by one and the
    entries it had follow unchanged.  On gateway failure the list is the one
    from before, the error field holds the normalised message and the
    rejection is thrown to the caller. *)
Theorem cloneVoice_spec (request : VoiceCloneRequest) (now : string)
    (s : State) :
  (∀ response,
     let ran := cloneVoice request now (Resolved response) s in
     completion ran = Returns (voice_id response) ∧
     (∃ newVoice,
        voices (state ran) = newVoice :: voices s ∧
        id newVoice = voice_id response ∧
        status newVoice = Status.processing ∧
        name newVoice = clone_name request ∧
        description newVoice = clone_description request ∧
        sample_count newVoice = Z.of_nat (length (clone_files request)) ∧
        created_at newVoice = now) ∧
     length (voices (state ran)) = S (length (voices s)) ∧
     drop 1 (voices (state ran)) = voices s ∧
     isLoading (state ran) = false ∧
     selectedVoice (state ran) = selectedVoice s) ∧
  (∀ error,
     let ran := cloneVoice request now (Rejected error) s in
     completion ran = Throws (JObj error) ∧
     voices (state ran) = voices s ∧
     handleAPIError (JObj error) = Returns (VoiceStore.error (state ran)) ∧
     isLoading (state ran) = false ∧
     selectedVoice (state ran) = selectedVoice s).
Proof.
  split.
  - intros response. cbv zeta. rewrite cloneVoice_resolved.
    cbn [state completion voices selectedVoice isLoading].
    split; [done|]. split; [|done].
    by exists (provisional request now response).
  - intros error. cbv zeta. rewrite cloneVoice_rejected.
    cbn [state completion voices selectedVoice isLoading VoiceStore.error].
    by rewrite handleAPIError_unfold.
Qed.

(** The example of the specification: a request named X with two files. *)
Example cloneVoice_two_files :
  let request :=
    {| clone_name := "X"; clone_description := "d";
       clone_files := [mkFile "f1.wav" "audio/wav" 1024 0;
                       mkFile "f2.wav" "audio/wav" 2048 0] |} in
  let ran := cloneVoice request "2024-05-01T10:00:00.000Z"
               (Resolved (mkVoiceCloneReply "voice-3" "processing" "ok"))
               two_voices in
  (status <$> head (voices (state ran))) = Some Status.processing ∧
  (name <$> head (voices (state ran))) = Some "X" ∧
  (sample_count <$> head (voices (state ran))) = Some 2%Z ∧
  length (voices (state ran)) = 3.
Proof. done. Qed.

End VoiceStoreProperties.

(** ** Runs of the generation history store *)

Section TTSRunsProperties.

Import TTSStore TTSRuns Samples.
Local Open Scope nat_scope.
Local Open Scope list_scope.

Lemma perform_history a s :
  history (perform a s) =
  match a with
  | Generate _ (Resolved response) => response :: take 19 (history s)
  | Generate _ (Rejected _) => history s
  | Clear => []
  end.
Proof.
  destruct a as [request [response|error]|]; cbn [perform].
  - by rewrite generateSpeech_resolved.
  - by rewrite generateSpeech_rejected.
  - done.
Qed.

Lemma perform_currentAudio a s :
  currentAudio (perform a s) =
  match a with
  | Generate _ (Resolved response) => Some response
  | Generate _ (Rejected _) => currentAudio s
  | Clear => None
  end.
Proof.
  destruct a as [request [response|error]|]; cbn [perform].
  - by rewrite generateSpeech_resolved.
  - by rewrite generateSpeech_rejected.
  - done.
Qed.

(** Whatever the pages ask of the store, in whatever order and with
    whatever gateway outcomes, the history never exceeds 20 entries, the
    current result is the head of the history, and the persisted slice is a
    prefix of the history of at most 10 entries. *)
Theorem perform_all_invariants (actions : list Action) (s : State) :
  length (history s) ≤ 20 →
  currentAudio s = head (history s) →
  let final := perform_all actions s in
  length (history final) ≤ 20 ∧
  currentAudio final = head (history final) ∧
  persisted_history (partialize final) `prefix_of` history final ∧
  length (persisted_history (partialize final)) ≤ 10.
Proof.
  intros Hlen Hcur final.
  assert (length (history final) ≤ 20 ∧ currentAudio final = head (history final))
    as [Hlen' Hcur'].
  { subst final. revert s Hlen Hcur.
    induction actions as [|a rest IH]; intros s Hlen Hcur; [done|].
    cbn [perform_all foldl]. apply IH.
    - rewrite perform_history.
      destruct a as [request [response|error]|]; cbn; [|done|lia].
      rewrite length_take. lia.
    - rewrite perform_history, perform_currentAudio.
      by destruct a as [request [response|error]|]. }
  split; [done|]. split; [done|]. split.
  - cbn. apply prefix_take.
  - cbn. rewrite length_take. lia.
Qed.

Lemma perform_all_invariants_witness :
  length (history initial) ≤ 20 ∧
  currentAudio initial = head (history initial) ∧
  length (history (perform_all
                     [Generate (sample_request "a")
                               (Resolved (sample_response "a"));
                      Clear;
                      Generate (sample_request "b") (Rejected [])]
                     initial)) ≤ 20.
Proof.
  assert (length (history initial) ≤ 20) as Hlen by (cbn; lia).
  assert (currentAudio initial = head (history initial)) as Hcur
    by reflexivity.
  split; [exact Hlen|]. split; [exact Hcur|].
  exact (proj1 (perform_all_invariants _ initial Hlen Hcur)).
Defined.

(** Rejected generations are transparent for the history: after any run of
    calls, each settled before the next, the history is made of the
    responses of the accepted calls alone, most recent first, cut at 20. *)
Theorem generateSpeech_each_skips_failures
    (calls : list (TTSRequest * Outcome TTSResponse)) (s : State) :
  length (history s) ≤ 20 →
  history (generateSpeech_each calls s) =
  take 20 (reverse (resolved calls) ++ history s).
Proof.
  revert s. induction calls as [|[request reply] rest IH]; intros s Hlen.
  - cbn. by rewrite take_ge.
  - cbn [generateSpeech_each]. destruct reply as [response|error].
    + rewrite generateSpeech_resolved. cbn [state].
      rewrite IH; cbn [history].
      * unfold resolved. cbn [omap list_omap snd]. fold (resolved rest).
        rewrite reverse_cons, (cons_middle response), (assoc_L (++)).
        apply take_app_take. rewrite length_app. cbn. lia.
      * cbn. rewrite length_take. lia.
    + rewrite generateSpeech_rejected. cbn [state].
      rewrite IH by done. done.
Qed.

Lemma generateSpeech_each_skips_failures_witness :
  length (history initial) ≤ 20 ∧
  history (generateSpeech_each
             [(sample_request "a", Resolved (sample_response "a"));
              (sample_request "b", Rejected []);
              (sample_request "c", Resolved (sample_response "c"))]
             initial)
  = [sample_response "c"; sample_response "a"].
Proof.
  assert (length (history initial) ≤ 20) as Hlen by (cbn; lia).
  split; [exact Hlen|].
  exact (generateSpeech_each_skips_failures _ initial Hlen).
Defined.

End TTSRunsProperties.

(** ** Runs of the voice registry store *)

Section VoiceRunsProperties.

Import Samples VoiceStore VoiceRuns.
Local Open Scope nat_scope.
Local Open Scope list_scope.

Lemma deleteVoice_settle_resolved voiceId captured message s :
  deleteVoice_settle voiceId captured (Resolved message) s =
  mkRan (Returns tt)
        {| voices := filter (λ v, id v ≠ voiceId) captured;
           selectedVoice := if selected_is (selectedVoice s) voiceId
                            then None else selectedVoice s;
           isLoading := isLoading s;
           VoiceStore.error := VoiceStore.error s |}
        [ToastSuccess "Stimme erfolgreich gelöscht"].
Proof.
  unfold deleteVoice_settle, try_catch.
  unfold mbind, act_bind. cbn -[filter].
  by destruct (selected_is (selectedVoice s) voiceId).
Qed.

Lemma filter_other_comm (a b : string) (vs : list Voice) :
  filter (λ v, id v ≠ a) (filter (λ v, id v ≠ b) vs) =
  filter (λ v, id v ≠ b) (filter (λ v, id v ≠ a) vs).
Proof. rewrite !list_filter_filter. apply list_filter_iff. tauto. Qed.

Lemma filter_other_idemp (a : string) (vs : list Voice) :
  filter (λ v, id v ≠ a) (filter (λ v, id v ≠ a) vs) =
  filter (λ v, id v ≠ a) vs.
Proof. rewrite list_filter_filter. apply list_filter_iff. tauto. Qed.

Lemma selected_is_cleared (selected : option Voice) (a b : string) :
  selected_is (if selected_is selected a then None else selected) b
  = negb (selected_is selected a) && selected_is selected b.
Proof. by destruct (selected_is selected a). Qed.

(** A lost update: [deleteVoice] filters the list it read before its
    request was sent.  When two deletions overlap, the reply handled last
    writes back a list that still holds the voice the other call removed;
    issued one after the other, the same calls remove both. *)
Theorem overlapping_deletes_restore_first
    (first second : string) (m1 m2 : string) (s : State) :
  first ≠ second →
  let raced := overlapping_deletes first second (Resolved m1) (Resolved m2) s in
  let queued := successive_deletes first second (Resolved m1) (Resolved m2) s in
  voices raced = filter (λ v, id v ≠ second) (voices s) ∧
  (∀ v, v ∈ voices s → id v = first → v ∈ voices raced) ∧
  (∀ v, id v = first → v ∉ voices queued) ∧
  (∀ v, id v = second → (v ∉ voices raced) ∧ (v ∉ voices queued)).
Proof.
  intros Hne raced queued.
  assert (voices raced = filter (λ v, id v ≠ second) (voices s)) as Hraced.
  { unfold raced, overlapping_deletes.
    by rewrite !deleteVoice_settle_resolved. }
  assert (voices queued
          = filter (λ v, id v ≠ second) (filter (λ v, id v ≠ first) (voices s)))
    as Hqueued.
  { unfold queued, successive_deletes. by rewrite !deleteVoice_resolved. }
  split; [exact Hraced|]. split; [|split].
  - intros v Hin Hv. rewrite Hraced. apply list_elem_of_filter.
    split; [congruence | done].
  - intros v Hv. rewrite Hqueued, !list_elem_of_filter. tauto.
  - intros v Hv. rewrite Hraced, Hqueued, !list_elem_of_filter. tauto.
Qed.

Lemma overlapping_deletes_restore_first_witness :
  "voice-1" ≠ "voice-2" ∧
  voice_1 ∈ voices (overlapping_deletes "voice-1" "voice-2"
                      (Resolved "deleted") (Resolved "deleted") two_voices) ∧
  voice_1 ∉ voices (successive_deletes "voice-1" "voice-2"
                      (Resolved "deleted") (Resolved "deleted") two_voices).
Proof.
  assert ("voice-1" ≠ "voice-2") as Hne by discriminate.
  pose proof (overlapping_deletes_restore_first
                "voice-1" "voice-2" "deleted" "deleted" two_voices Hne) as H.
  cbv zeta in H. destruct H as (_ & Hback & Hgone & _).
  split; [exact Hne|]. split.
  - apply Hback; [left | reflexivity].
  - apply Hgone. reflexivity.
Defined.

(** Successful deletions issued one after the other commute, and deleting
    the same id twice is the same as deleting it once: the store state
    (list, selection, flags) does not depend on the order or the
    repetition. *)
Theorem successive_deletes_commute (a b : string) (m1 m2 : string) (s : State) :
  successive_deletes a b (Resolved m1) (Resolved m2) s =
  successive_deletes b a (Resolved m2) (Resolved m1) s ∧
  successive_deletes a a (Resolved m1) (Resolved m2) s =
  state (deleteVoice a (Resolved m1) s).
Proof.
  unfold successive_deletes. rewrite !deleteVoice_resolved.
  cbn [state voices selectedVoice isLoading VoiceStore.error].
  split.
  - rewrite filter_other_comm. f_equal.
    rewrite !selected_is_cleared.
    destruct (selected_is (selectedVoice s) a),
             (selected_is (selectedVoice s) b); done.
  - rewrite filter_other_idemp. f_equal.
    rewrite selected_is_cleared.
    by destruct (selected_is (selectedVoice s) a).
Qed.

(** After a successful [deleteVoice(id)] the id is gone from the store: no
    entry of the list carries it and the selection does not point to it. *)
Theorem deleteVoice_purges_id (voiceId message : string) (s : State) :
  let after := state (deleteVoice voiceId (Resolved message) s) in
  occurrences voiceId (voices after) = 0 ∧
  (∀ v, v ∈ voices after → id v ≠ voiceId) ∧
  selected_is (selectedVoice after) voiceId = false.
Proof.
  cbv zeta. rewrite deleteVoice_resolved.
  cbn [state voices selectedVoice].
  split; [|split].
  - unfold occurrences. rewrite list_filter_filter.
    rewrite (list_filter_iff _ (λ _, False)) by tauto.
    by induction (voices s).
  - intros v Hin. apply list_elem_of_filter in Hin. tauto.
  - rewrite selected_is_cleared.
    by destruct (selected_is (selectedVoice s) voiceId).
Qed.

(** An insert/delete round trip: a successful [cloneVoice] followed by a
    successful [deleteVoice] of the id the gateway returned leaves the voice
    list as it was, provided no listed voice already carried that id; in
    general it leaves the list without the entries of that id. *)
Theorem cloneVoice_then_deleteVoice
    (request : VoiceCloneRequest) (now : string) (response : VoiceCloneReply)
    (message : string) (s : State) :
  let ran := (cloneVoice request now (Resolved response);;
              deleteVoice (voice_id response) (Resolved message)) s in
  completion ran = Returns tt ∧
  voices (state ran)
    = filter (λ v, id v ≠ voice_id response) (voices s) ∧
  ((∀ v, v ∈ voices s → id v ≠ voice_id response) →
   voices (state ran) = voices s) ∧
  (selected_is (selectedVoice s) (voice_id response) = false →
   selectedVoice (state ran) = selectedVoice s).
Proof.
  cbv zeta. unfold mbind, act_bind.
  rewrite cloneVoice_resolved. cbn [completion state events].
  rewrite deleteVoice_resolved.
  cbn [completion state events voices selectedVoice].
  assert (filter (λ v, id v ≠ voice_id response)
                 (provisional request now response :: voices s)
          = filter (λ v, id v ≠ voice_id response) (voices s)) as Hfilter.
  { rewrite filter_cons_False; [done|]. intros H. by apply H. }
  rewrite Hfilter.
  split; [done|]. split; [done|]. split.
  - intros Hfresh. by apply filter_keeps_all.
  - by intros ->.
Qed.

Lemma cloneVoice_then_deleteVoice_witness :
  (∀ v, v ∈ voices two_voices → id v ≠ "voice-3") ∧
  voices (state ((cloneVoice (mkVoiceCloneRequest "X" "d" [sample_wav])
                    "2024-05-01T10:00:00.000Z"
                    (Resolved (mkVoiceCloneReply "voice-3" "processing" "ok"));;
                  deleteVoice "voice-3" (Resolved "deleted")) two_voices))
  = voices two_voices.
Proof.
  assert (∀ v, v ∈ voices two_voices → id v ≠ "voice-3") as Hfresh.
  { intros v Hv. cbn in Hv.
    apply elem_of_cons in Hv as [->|Hv]; [discriminate|].
    apply list_elem_of_singleton in Hv as ->. discriminate. }
  split; [exact Hfresh|].
  exact (proj1 (proj2 (proj2
           (cloneVoice_then_deleteVoice
              (mkVoiceCloneRequest "X" "d" [sample_wav])
              "2024-05-01T10:00:00.000Z"
              (mkVoiceCloneReply "voice-3" "processing" "ok")
              "deleted" two_voices))) Hfresh).
Defined.

End VoiceRunsProperties.

(** ** Settings store: updates and persistence *)

Section SettingsUpdateProperties.

Import SettingsStore.

Lemma updateSettings_run newSettings s :
  updateSettings newSettings s =
  mkRan (Returns tt)
        {| settings := spread (settings s) newSettings;
           languages := languages s |}
        [].
Proof. reflexivity. Qed.

Lemma spread_overlay settings earlier later :
  spread (spread settings earlier) later = spread settings (overlay earlier later).
Proof.
  destruct later as [[t|] [v|] [l|]]; reflexivity.
Qed.

(** [updateSettings] is a shallow merge and nothing else: a key that is
    passed is stored as it is, without any check of its range; a key that is
    not passed keeps its value; two updates in a row amount to one update
    with the later keys laid over the earlier ones; an update without keys
    changes nothing; the language list is never touched and nothing is
    emitted or thrown. *)
Theorem updateSettings_shallow_merge
    (earlier later : PartialSettings) (s : State) :
  let ran := updateSettings later s in
  completion ran = Returns tt ∧
  events ran = [] ∧
  languages (state ran) = languages s ∧
  temperature (settings (state ran))
    = default (temperature (settings s)) (new_temperature later) ∧
  speed (settings (state ran))
    = default (speed (settings s)) (new_speed later) ∧
  settings_language (settings (state ran))
    = default (settings_language (settings s)) (new_language later) ∧
  state ((updateSettings earlier;; updateSettings later) s)
    = state (updateSettings (overlay earlier later) s) ∧
  state (updateSettings (mkPartialSettings None None None) s) = s.
Proof.
  cbv zeta. unfold mbind, act_bind. rewrite !updateSettings_run.
  cbn [completion state events settings languages].
  repeat split.
  - by rewrite spread_overlay.
  - by destruct s as [[t v l] ls].
Qed.

(** [fetchLanguages] never fails towards its caller and never changes what
    is persisted: whatever the gateway does, the action completes normally,
    the settings are the ones from before, and the language list it leaves
    does not depend on the list that was there. *)
Theorem fetchLanguages_keeps_persisted
    (reply : Outcome LanguagesReply) (s : State) :
  completion (fetchLanguages reply s) = Returns tt ∧
  partialize (state (fetchLanguages reply s)) = partialize s ∧
  (∀ other, languages (state (fetchLanguages reply other))
            = languages (state (fetchLanguages reply s))) ∧
  state (fetchLanguages reply (state (fetchLanguages reply s)))
    = state (fetchLanguages reply s).
Proof.
  destruct reply as [response|error].
  - done.
  - split; [|split; [|split]].
    + by rewrite fetchLanguages_rejected.
    + by rewrite fetchLanguages_rejected.
    + intros other. by rewrite !fetchLanguages_rejected.
    + by rewrite !fetchLanguages_rejected.
Qed.

End SettingsUpdateProperties.

(** ** Edge cases of error normalisation and validation *)

Section ApiEdgeCases.

Import Samples.

Lemma first_truthy_truthy candidates default :
  truthy default = true → truthy (first_truthy candidates default) = true.
Proof.
  intros Hd. induction candidates as [|v rest IH]; [done|].
  cbn. by destruct (truthy v) eqn:Hv.
Qed.

(** For every failure other than [null] and [undefined], the message
    [handleAPIError] returns is truthy: it is never the empty string,
    [null] or [undefined], so a toast built from it is never blank. *)
Theorem handleAPIError_never_blank (error : JsVal) :
  nullish error = false →
  ∃ message, handleAPIError error = Returns message ∧
             truthy message = true ∧
             message ≠ JStr "" ∧ message ≠ JNull ∧ message ≠ JUndefined.
Proof.
  intros Hn. exists (normalized error).
  split; [by apply handleAPIError_unfold|].
  assert (truthy (normalized error) = true) as Ht
    by (by apply first_truthy_truthy).
  split; [done|].
  repeat split; intros Heq; by rewrite Heq in Ht.
Qed.

Lemma handleAPIError_never_blank_witness :
  nullish failure_empty_detail = false ∧
  ∃ message, handleAPIError failure_empty_detail = Returns message ∧
             truthy message = true ∧
             message ≠ JStr "" ∧ message ≠ JNull ∧ message ≠ JUndefined.
Proof.
  split; [reflexivity|].
  exact (handleAPIError_never_blank failure_empty_detail eq_refl).
Defined.

(** [handleAPIError(null)] and [handleAPIError(undefined)] do not produce
    the fallback text: reading [error.response] throws a [TypeError]. *)
Theorem handleAPIError_null_throws (error : JsVal) :
  nullish error = true →
  handleAPIError error = Throws (TypeError error "response") ∧
  ∀ message, handleAPIError error ≠ Returns message.
Proof.
  intros Hn. rewrite (handleAPIError_nullish _ Hn). by split.
Qed.

Lemma handleAPIError_null_throws_witness :
  nullish JNull = true ∧
  handleAPIError JNull = Throws (TypeError JNull "response").
Proof.
  split; [reflexivity|].
  exact (proj1 (handleAPIError_null_throws JNull eq_refl)).
Defined.

(** A thrown value that is not an object (a string, a number, a boolean) or
    that is an array carries no [response] and no [message]: whatever it
    holds, [handleAPIError] answers with the fallback text. *)
Theorem handleAPIError_primitive_fallback :
  (∀ s, handleAPIError (JStr s) = Returns (JStr fallback_message)) ∧
  (∀ n, handleAPIError (JNum n) = Returns (JStr fallback_message)) ∧
  (∀ b, handleAPIError (JBool b) = Returns (JStr fallback_message)) ∧
  (∀ items, handleAPIError (JArr items) = Returns (JStr fallback_message)).
Proof. done. Qed.

(** The two fields of a validation result agree: the result is invalid
    exactly when it carries a reason, and the reason is one of the two fixed
    texts; so reading [validation.error] after [!validation.valid] always
    finds a text. *)
Theorem validateAudioFile_reason_iff_invalid (file : File) :
  (valid (validateAudioFile file) = false
   ↔ is_Some (Api.error (validateAudioFile file))) ∧
  (valid (validateAudioFile file) = true
   ↔ Api.error (validateAudioFile file) = None) ∧
  (∀ reason, Api.error (validateAudioFile file) = Some reason →
             reason = type_error ∨ reason = size_error).
Proof.
  unfold validateAudioFile.
  destruct (negb (includes validTypes (file_type file)));
    [|destruct (file_size file >? maxSize)%Z]; cbn.
  all: repeat split; try done; try (by intros [? ?]); try (by eexists).
  all: intros reason [= <-]; auto.
Qed.

Lemma validateAudioFile_reason_iff_invalid_witness :
  valid (validateAudioFile sample_video) = false ∧
  is_Some (Api.error (validateAudioFile sample_video)).
Proof.
  assert (valid (validateAudioFile sample_video) = false) as Hinvalid
    by reflexivity.
  split; [exact Hinvalid|].
  exact (proj1 (proj1 (validateAudioFile_reason_iff_invalid sample_video))
           Hinvalid).
Defined.

End ApiEdgeCases.

(** ** Formatting of durations *)

Section FormatProperties.

Import Format.

Lemma string_length_app (a b : string) :
  String.length (a +:+ b) = (String.length a + String.length b)%nat.
Proof.
  induction a as [|c a IH]; [done|].
  change (String c a +:+ b) with (String c (a +:+ b)).
  cbn [String.length Nat.add]. by rewrite IH.
Qed.

Lemma string_app_inj_suffix (a b c d : string) :
  String.length b = String.length d →
  a +:+ b = c +:+ d → a = c ∧ b = d.
Proof.
  revert c. induction a as [|x a IH]; intros [|y c] Hlen Heq.
  - done.
  - exfalso. change (b = String y (c +:+ d)) in Heq.
    rewrite Heq in Hlen. cbn [String.length] in Hlen.
    rewrite string_length_app in Hlen. lia.
  - exfalso. change (String x (a +:+ b) = d) in Heq.
    rewrite <- Heq in Hlen. cbn [String.length] in Hlen.
    rewrite string_length_app in Hlen. lia.
  - change (String x (a +:+ b) = String y (c +:+ d)) in Heq.
    injection Heq as -> Heq. destruct (IH c Hlen Heq) as [-> ->]. done.
Qed.

(** The sixty texts of the seconds field. *)
Lemma seconds_field_table :
  let table := (λ n, padStart 2 "0" (pretty (Z.of_nat n))) <$> seq 0 60 in
  Forall (λ t, String.length t = 2%nat) table ∧ NoDup table.
Proof.
  cbv zeta. split; refine (bool_decide_unpack _ _); vm_compute; exact I.
Qed.

Lemma seconds_field_lookup (r : Z) :
  (0 ≤ r < 60)%Z →
  ((λ n, padStart 2 "0" (pretty (Z.of_nat n))) <$> seq 0 60) !! Z.to_nat r
  = Some (padStart 2 "0" (pretty r)).
Proof.
  intros Hr. rewrite list_lookup_fmap, lookup_seq_lt by lia.
  cbn. by rewrite Z2Nat.id by lia.
Qed.

Lemma seconds_field_length (r : Z) :
  (0 ≤ r < 60)%Z → String.length (padStart 2 "0" (pretty r)) = 2%nat.
Proof.
  intros Hr. destruct seconds_field_table as [Hall _].
  rewrite Forall_lookup in Hall.
  exact (Hall _ _ (seconds_field_lookup r Hr)).
Qed.

Lemma seconds_field_inj (r1 r2 : Z) :
  (0 ≤ r1 < 60)%Z → (0 ≤ r2 < 60)%Z →
  padStart 2 "0" (pretty r1) = padStart 2 "0" (pretty r2) → r1 = r2.
Proof.
  intros H1 H2 Heq. destruct seconds_field_table as [_ Hnodup].
  pose proof (seconds_field_lookup r1 H1) as L1.
  pose proof (seconds_field_lookup r2 H2) as L2.
  rewrite <- Heq in L2.
  pose proof (NoDup_lookup _ _ _ _ Hnodup L1 L2). lia.
Qed.

(** For a whole number of seconds from 0 on (below 2^53), [formatDuration]
    gives the minutes in decimal, a colon, and a seconds field of exactly
    two characters that stands for a number below 60; minutes and seconds
    add up to the input, and different durations get different texts. *)
Theorem formatDuration_whole_seconds (seconds : Z) :
  (0 ≤ seconds < 2 ^ 53)%Z →
  (∃ mins secs field,
     formatDuration seconds = pretty mins +:+ ":" +:+ field ∧
     field = padStart 2 "0" (pretty secs) ∧
     String.length field = 2%nat ∧
     (0 ≤ secs < 60)%Z ∧ (0 ≤ mins)%Z ∧
     (60 * mins + secs)%Z = seconds) ∧
  (∀ other, (0 ≤ other < 2 ^ 53)%Z →
            formatDuration other = formatDuration seconds →
            other = seconds).
Proof.
  intros Hs.
  assert (∀ x, (0 ≤ x)%Z → (0 ≤ x `rem` 60 < 60)%Z ∧ (0 ≤ x `div` 60)%Z
                ∧ (60 * (x `div` 60) + x `rem` 60)%Z = x) as Hparts.
  { intros x Hx. rewrite Z.rem_mod_nonneg by lia.
    pose proof (Z.mod_pos_bound x 60). pose proof (Z.div_mod x 60).
    pose proof (Z.div_pos x 60). lia. }
  split.
  - destruct (Hparts seconds) as (Hr & Hm & Hsum); [lia|].
    exists (seconds `div` 60)%Z, (seconds `rem` 60)%Z,
           (padStart 2 "0" (pretty (seconds `rem` 60)%Z)).
    split; [done|]. split; [done|].
    split; [by apply seconds_field_length|]. done.
  - intros other Ho Heq.
    destruct (Hparts seconds) as (Hr & Hm & Hsum); [lia|].
    destruct (Hparts other) as (Hr' & Hm' & Hsum'); [lia|].
    unfold formatDuration in Heq. cbv zeta in Heq.
    apply string_app_inj_suffix in Heq as [Hmins Hfield].
    + apply (inj pretty) in Hmins.
      change (String ":" (padStart 2 "0" (pretty (other `rem` 60)%Z))
              = String ":" (padStart 2 "0" (pretty (seconds `rem` 60)%Z)))
        in Hfield.
      injection Hfield as Hfield.
      apply seconds_field_inj in Hfield; [|done..]. lia.
    + rewrite !string_length_app, !seconds_field_length by done. done.
Qed.

Lemma formatDuration_whole_seconds_witness :
  (0 ≤ 125 < 2 ^ 53)%Z ∧
  ∃ mins secs field,
    formatDuration 125 = pretty mins +:+ ":" +:+ field ∧
    field = padStart 2 "0" (pretty secs) ∧
    String.length field = 2%nat ∧
    (0 ≤ secs < 60)%Z ∧ (0 ≤ mins)%Z ∧
    (60 * mins + secs)%Z = 125%Z.
Proof.
  assert (0 ≤ 125 < 2 ^ 53)%Z as H by (split; [lia | reflexivity]).
  split; [exact H|].
  exact (proj1 (formatDuration_whole_seconds 125 H)).
Defined.

Example formatDuration_examples :
  formatDuration 125 = "2:05" ∧ formatDuration 0 = "0:00" ∧
  formatDuration 3600 = "60:00" ∧ formatDuration (-5) = "-1:-5".
Proof. vm_compute. done. Qed.

End FormatProperties.

(** ** The mock gateway *)

Section MockProperties.

Import Samples VoiceStore Mocks.
Local Open Scope nat_scope.
Local Open Scope list_scope.

Lemma occurrences_cons voiceId v (vs : list Voice) :
  occurrences voiceId (v :: vs) =
  (if String.eqb (id v) voiceId then 1 else 0) + occurrences voiceId vs.
Proof.
  unfold occurrences. rewrite filter_cons.
  destruct (String.eqb_spec (id v) voiceId) as [Heq|Hne].
  - by rewrite decide_True.
  - by rewrite decide_False.
Qed.

Lemma findIndex_none voiceId (vs : list Voice) :
  findIndex (λ v, String.eqb (id v) voiceId) vs = None ↔
  occurrences voiceId vs = 0.
Proof.
  induction vs as [|v vs IH]; [done|].
  rewrite occurrences_cons. cbn [findIndex].
  destruct (String.eqb (id v) voiceId); [split; [done | lia]|].
  rewrite <- IH.
  destruct (findIndex _ vs); cbn; split; done.
Qed.

Lemma findIndex_some voiceId (vs : list Voice) i :
  findIndex (λ v, String.eqb (id v) voiceId) vs = Some i →
  length (delete i vs) + 1 = length vs ∧
  occurrences voiceId (delete i vs) + 1 = occurrences voiceId vs ∧
  (occurrences voiceId vs ≤ 1 →
   delete i vs = filter (λ v, id v ≠ voiceId) vs).
Proof.
  revert i. induction vs as [|v vs IH]; intros i Hfind; [done|].
  cbn [findIndex] in Hfind. rewrite occurrences_cons.
  destruct (String.eqb_spec (id v) voiceId) as [Heq|Hne].
  - injection Hfind as <-. cbn [delete list_delete length].
    split; [lia|]. split; [lia|]. intros Hocc.
    rewrite filter_cons_False by (intros H; by apply H).
    symmetry. apply filter_keeps_all. intros u Hu Hid.
    assert (0 < occurrences voiceId vs); [|lia].
    unfold occurrences.
    assert (u ∈ filter (λ v, id v = voiceId) vs) as Hin
      by (by apply list_elem_of_filter).
    destruct (filter (λ v, id v = voiceId) vs); [by inversion Hin | cbn; lia].
  - destruct (findIndex _ vs) as [j|] eqn:Hj; [|done].
    injection Hfind as <-. destruct (IH j eq_refl) as (Hlen & Hocc & Hsync).
    change (delete (S j) (v :: vs)) with (v :: delete j vs).
    cbn [length]. rewrite occurrences_cons.
    destruct (String.eqb_spec (id v) voiceId) as [|_]; [done|].
    split; [lia|]. split; [lia|]. intros Hle.
    rewrite filter_cons_True by done. f_equal. apply Hsync. lia.
Qed.



(** The client list follows the mock server: when the id occurs at most
    once in a list that client and server share, the list that a successful
    [deleteVoice] leaves in the store is the list the handler leaves on the
    server. *)
Theorem deleteVoice_agrees_with_handler
    (voiceId message : string) (s : State) :
  occurrences voiceId (voices s) ≤ 1 →
  voices (state (deleteVoice voiceId (Resolved message) s))
  = (delete_handler voiceId (voices s)).2.
Proof.
  intros Hocc. rewrite deleteVoice_resolved. cbn [state voices].
  unfold delete_handler.
  destruct (findIndex _ (voices s)) as [i|] eqn:Hfind; cbn [snd].
  - symmetry. by apply (findIndex_some _ _ _ Hfind).
  - apply findIndex_none in Hfind. apply filter_keeps_all.
    intros u Hu Hid. unfold occurrences in Hfind.
    assert (u ∈ filter (λ v, id v = voiceId) (voices s)) as Hin
      by (by apply list_elem_of_filter).
    destruct (filter (λ v, id v = voiceId) (voices s)); [by inversion Hin|done].
Qed.

Lemma deleteVoice_agrees_with_handler_witness :
  occurrences "voice-2" (voices two_voices) ≤ 1 ∧
  voices (state (deleteVoice "voice-2" (Resolved "deleted") two_voices))
  = (delete_handler "voice-2" (voices two_voices)).2.
Proof.
  assert (occurrences "voice-2" (voices two_voices) ≤ 1) as Hocc
    by (vm_compute; lia).
  split; [exact Hocc|].
  exact (deleteVoice_agrees_with_handler "voice-2" "deleted" two_voices Hocc).
Defined.




End MockProperties.

(** ** The voices page *)

Section VoicesPageProperties.

Import Samples VoiceStore VoicesPage.
Local Open Scope nat_scope.
Local Open Scope list_scope.

(** The three groups the voices page shows (ready; processing or training;
    error) split the voice list: every voice is in exactly one group, so
    the three counters add up to the number of voices. *)
Theorem voices_page_groups_partition (voices : list Voice) :
  readyVoices voices ++ processingVoices voices ++ errorVoices voices
    ≡ₚ voices ∧
  length (readyVoices voices) + length (processingVoices voices)
    + length (errorVoices voices) = length voices.
Proof.
  assert (readyVoices voices ++ processingVoices voices ++ errorVoices voices
          ≡ₚ voices) as Hperm.
  { unfold readyVoices, processingVoices, errorVoices.
    induction voices as [|v vs IH]; [done|].
    rewrite !filter_cons.
    destruct (status v); repeat case_decide;
      try (exfalso; by intuition);
      cbn [app];
      first [ by constructor
            | rewrite <- Permutation_middle; by constructor
            | rewrite (assoc_L (++)), <- Permutation_middle,
                <- (assoc_L (++)); by constructor ]. }
  split; [exact Hperm|].
  apply Permutation_length in Hperm. rewrite !length_app in Hperm. lia.
Qed.

(** Deleting from the voices page takes two clicks on the same voice: a
    click on a voice that is not armed only arms it (and starts the
    three-second timer), whatever the gateway would answer, and leaves the
    store alone; a click on the armed voice runs [deleteVoice]; when that
    fails the voice stays armed and the failure goes no further. *)
Theorem handleDelete_needs_confirmation
    (voiceId : string) (reply : Outcome string)
    (p : VoicesPage.State) (st : VoiceStore.State) :
  let h := handleDelete voiceId reply p st in
  (confirms (deleteConfirm p) voiceId = false →
   store h = st ∧ store_events h = [] ∧ timers h = [3000%Z] ∧
   deleteConfirm (page h) = Some voiceId ∧
   confirms (deleteConfirm (page h)) voiceId = true) ∧
  (confirms (deleteConfirm p) voiceId = true →
   store h = state (deleteVoice voiceId reply st) ∧ timers h = [] ∧
   match reply with
   | Resolved _ => deleteConfirm (page h) = None
   | Rejected _ => page h = p ∧ store h = st
   end).
Proof.
  cbv zeta. unfold handleDelete.
  destruct (confirms (deleteConfirm p) voiceId) eqn:Harmed.
  - split; [done|]. intros _. destruct reply as [message|error].
    + by rewrite deleteVoice_resolved.
    + by rewrite deleteVoice_rejected.
  - split; [|done]. intros _. cbn. by rewrite String.eqb_refl.
Qed.

Lemma handleDelete_needs_confirmation_witness :
  confirms (deleteConfirm (VoicesPage.mkState None None)) "voice-1" = false ∧
  store (handleDelete "voice-1" (Resolved "deleted")
           (VoicesPage.mkState None None) two_voices) = two_voices.
Proof.
  split; [reflexivity|].
  exact (proj1 (proj1 (handleDelete_needs_confirmation "voice-1"
                         (Resolved "deleted") (VoicesPage.mkState None None)
                         two_voices) eq_refl)).
Defined.

End VoicesPageProperties.

(** ** The voice cloning page *)

Section VoiceClonePageProperties.

Import Samples VoiceStore VoiceClonePage.
Local Open Scope nat_scope.
Local Open Scope list_scope.

Lemma validateAudioFile_valid_iff file :
  valid (validateAudioFile file) = true ↔
  file_type file ∈ validTypes ∧ (file_size file ≤ maxSize)%Z.
Proof.
  unfold validateAudioFile.
  destruct (includes validTypes (file_type file)) eqn:Hin; cbn [negb].
  - apply includes_elem_of in Hin.
    destruct (Z.gtb_spec (file_size file) maxSize) as [Hgt|Hle]; cbn [valid].
    + split; [done|]. intros [_ Hsz]. lia.
    + split; [|done]. intros _. split; [done | lia].
  - apply includes_not_elem_of in Hin. cbn [valid].
    split; [done|]. by intros [Hty _].
Qed.

Lemma onDrop_loop_spec (acceptedFiles : list (File * Decoded)) :
  Forall (λ af, valid (validateAudioFile (af_file af)) = true)
         (onDrop_loop acceptedFiles).1 ∧
  (af_file <$> (onDrop_loop acceptedFiles).1) `sublist_of` acceptedFiles.*1 ∧
  length (onDrop_loop acceptedFiles).1 + length (onDrop_loop acceptedFiles).2
    = length acceptedFiles.
Proof.
  induction acceptedFiles as [|[file decoded] rest (IHv & IHs & IHl)];
    [by repeat constructor|].
  cbn [onDrop_loop]. destruct (onDrop_loop rest) as [newFiles toasts].
  cbn [fst snd] in *. cbn [fmap list_fmap fst].
  destruct (valid (validateAudioFile file)) eqn:Hvalid; cbn [negb].
  - destruct decoded as [duration preview rid|]; cbn [fst snd].
    + split; [by constructor|]. split; [by constructor|]. cbn. lia.
    + split; [done|]. split; [by constructor|]. cbn. lia.
  - cbn [fst snd]. split; [done|]. split; [by constructor|]. cbn. lia.
Qed.

(** The staging list only ever holds files that passed validation: if that
    is so before, it is so after an [onDrop] and after a [removeFile].  A
    drop appends, in drop order, some of the dropped files to the end of
    the list and answers each of the others with one toast; and every file
    of the request a later submit builds has an allowed type and at most
    50 MiB. *)
Theorem staged_files_are_valid
    (acceptedFiles : list (File * Decoded)) (id : string)
    (p : VoiceClonePage.State) :
  Forall (λ af, valid (validateAudioFile (af_file af)) = true) (audioFiles p) →
  let dropped := (onDrop acceptedFiles p).1 in
  let toasts := (onDrop acceptedFiles p).2 in
  Forall (λ af, valid (validateAudioFile (af_file af)) = true)
         (audioFiles dropped) ∧
  (∃ newFiles, audioFiles dropped = audioFiles p ++ newFiles ∧
               (af_file <$> newFiles) `sublist_of` acceptedFiles.*1 ∧
               length newFiles + length toasts = length acceptedFiles) ∧
  Forall (λ af, valid (validateAudioFile (af_file af)) = true)
         (audioFiles (removeFile id p).1) ∧
  Forall (λ file, file_type file ∈ validTypes ∧ (file_size file ≤ maxSize)%Z)
         (clone_files (submitted dropped)).
Proof.
  intros Hinv dropped toasts.
  destruct (onDrop_loop_spec acceptedFiles) as (Hv & Hs & Hl).
  assert (audioFiles dropped = audioFiles p ++ (onDrop_loop acceptedFiles).1)
    as Hdropped.
  { unfold dropped, onDrop. by destruct (onDrop_loop acceptedFiles). }
  assert (toasts = (onDrop_loop acceptedFiles).2) as Htoasts.
  { unfold toasts, onDrop. by destruct (onDrop_loop acceptedFiles). }
  assert (Forall (λ af, valid (validateAudioFile (af_file af)) = true)
                 (audioFiles dropped)) as Hall.
  { rewrite Hdropped. by apply Forall_app. }
  split; [exact Hall|]. split.
  { exists (onDrop_loop acceptedFiles).1. by rewrite Htoasts. }
  split.
  { cbn. rewrite Forall_forall in Hinv. apply Forall_forall.
    intros af Haf. apply list_elem_of_filter in Haf as [_ Haf]. by apply Hinv. }
  cbn [submitted clone_files]. rewrite Forall_fmap.
  eapply Forall_impl; [exact Hall|].
  intros af Haf. by apply validateAudioFile_valid_iff.
Qed.

Lemma staged_files_are_valid_witness :
  Forall (λ af, valid (validateAudioFile (af_file af)) = true)
         (audioFiles (VoiceClonePage.mkState [] "" "" None)) ∧
  Forall (λ af, valid (validateAudioFile (af_file af)) = true)
         (audioFiles
            (onDrop [(sample_video, DecodeError);
                     (mkFile "a.wav" "audio/wav" 1024 0,
                      DecodeOk 3.5 "blob:1" "k3j9x0a1b")]
                    (VoiceClonePage.mkState [] "" "" None)).1).
Proof.
  assert (Forall (λ af, valid (validateAudioFile (af_file af)) = true)
                 (audioFiles (VoiceClonePage.mkState [] "" "" None))) as Hinv
    by constructor.
  split; [exact Hinv|].
  exact (proj1 (staged_files_are_valid _ "" _ Hinv)).
Defined.

(** [handleSubmit] sends nothing when the name is blank or no file is
    staged: page and store stay as they are and one toast is shown.
    Otherwise it submits the staged files: on success the form is emptied
    and the store's new first voice counts as many samples as files were
    staged, under the name as typed; on failure the form, with its staged
    files, is kept, the store's list is unchanged and holds the error. *)
Theorem handleSubmit_outcomes
    (trim : string → string) (now : string)
    (reply : Outcome VoiceCloneReply)
    (p : VoiceClonePage.State) (st : VoiceStore.State) :
  let h := handleSubmit trim now reply p st in
  (trim (voiceName p) = "" ∨ audioFiles p = [] →
   page h = p ∧ store h = st ∧ store_events h = [] ∧
   length (page_toasts h) = 1) ∧
  (trim (voiceName p) ≠ "" → audioFiles p ≠ [] →
   page_toasts h = [] ∧
   match reply with
   | Resolved response =>
       page h = VoiceClonePage.mkState [] "" "" (playingId p) ∧
       ∃ v, voices (store h) = v :: voices st ∧
            sample_count v = Z.of_nat (length (audioFiles p)) ∧
            name v = voiceName p ∧
            id v = voice_id response ∧
            status v = Status.processing
   | Rejected error =>
       page h = p ∧ voices (store h) = voices st ∧
       VoiceStore.error (store h) = normalized (JObj error)
   end).
Proof.
  cbv zeta. unfold handleSubmit.
  destruct (String.eqb_spec (trim (voiceName p)) "") as [Hblank|Hname].
  { split; [done|]. by intros Hne. }
  destruct (audioFiles p) as [|af afs] eqn:Hfiles.
  { split; [done|]. by intros _ Hne. }
  cbn [length Nat.eqb]. split; [by intros [?|?]|]. intros _ _.
  destruct reply as [response|error].
  - rewrite cloneVoice_resolved. cbn [completion state events].
    split; [done|]. split; [done|].
    exists (provisional (submitted p) now response).
    cbn [page store voices provisional sample_count name id status submitted
         clone_files clone_name].
    rewrite length_fmap, Hfiles. done.
  - rewrite cloneVoice_rejected. cbn [completion state events]. done.
Qed.

Lemma handleSubmit_outcomes_witness :
  (λ text : string, text) "" = "" ∧
  store (handleSubmit (λ text, text) "2024-05-01T10:00:00.000Z"
           (Resolved (mkVoiceCloneReply "voice-3" "processing" "ok"))
           (VoiceClonePage.mkState [] "" "" None) two_voices) = two_voices.
Proof.
  split; [reflexivity|].
  exact (proj1 (proj2 (proj1 (handleSubmit_outcomes (λ text, text)
           "2024-05-01T10:00:00.000Z"
           (Resolved (mkVoiceCloneReply "voice-3" "processing" "ok"))
           (VoiceClonePage.mkState [] "" "" None) two_voices)
           (or_introl eq_refl)))).
Defined.

End VoiceClonePageProperties.

(** ** The progress bar *)

Section ProgressBarProperties.

Import ProgressBar.

(** Whatever finite number the bar is given, the width it
    draws lies between 0 and 100, a value already in that range is drawn as
    it is, clamping twice changes nothing, and the percentage in the label
    is a whole number between 0 and 100. *)
Theorem clampedProgress_bounds (progress : Q) :
  (0 <= clampedProgress progress <= 100)%Q ∧
  ((0 <= progress <= 100)%Q → (clampedProgress progress == progress)%Q) ∧
  ((progress < 0)%Q → (clampedProgress progress == 0)%Q) ∧
  ((100 < progress)%Q → (clampedProgress progress == 100)%Q) ∧
  (clampedProgress (clampedProgress progress) == clampedProgress progress)%Q ∧
  (0 ≤ label progress ≤ 100)%Z.
Proof.
  assert (∀ x, (0 <= clampedProgress x <= 100)%Q
               ∧ ((0 <= x <= 100)%Q → (clampedProgress x == x)%Q)
               ∧ ((x < 0)%Q → (clampedProgress x == 0)%Q)
               ∧ ((100 < x)%Q → (clampedProgress x == 100)%Q)) as Hclamp.
  { intros x. unfold clampedProgress.
    destruct (Q.min_spec 100 x) as [[H1 E1]|[H1 E1]];
      destruct (Q.max_spec 0 (Qmin 100 x)) as [[H2 E2]|[H2 E2]];
      rewrite ?E2, ?E1 in *; repeat split; intros; lra. }
  destruct (Hclamp progress) as (Hb & Hid & Hlo & Hhi).
  split; [exact Hb|]. split; [exact Hid|]. split; [exact Hlo|].
  split; [exact Hhi|]. split.
  { by apply (Hclamp (clampedProgress progress)). }
  unfold label, round.
  split.
  - change 0%Z with (Qfloor 0). apply Qfloor_resp_le. lra.
  - change 100%Z with (Qfloor (100 + (1 # 2))). apply Qfloor_resp_le. lra.
Qed.

Lemma clampedProgress_bounds_witness :
  (100 < 250)%Q ∧ (clampedProgress 250 == 100)%Q.
Proof.
  assert (100 < 250)%Q as H by reflexivity.
  split; [exact H|].
  exact (proj1 (proj2 (proj2 (proj2 (clampedProgress_bounds 250)))) H).
Defined.

End ProgressBarProperties.
